(** * The modular-arithmetic core of Crypto-RSA-Algorithm.cpp

    A shallow embedding of the function templates [abs], [isEven], [gcd],
    [isCoprime], [invMul], [modMul] and [modPow] and of the driver [main],
    followed by the properties of them that the specification states and
    further properties of the code.

    Integers are mathematical [Z] values kept inside the range of a C++
    integer type.  The type the templates are instantiated at is a parameter
    [T : int_kind] (signedness and width); [int] is 32 bits wide.  The model
    follows the C++ rules the source relies on:
    - operands narrower than [int] are promoted to [int] before arithmetic;
    - unsigned arithmetic wraps modulo [2 ^ bits];
    - a conversion to an integer type wraps (two's complement);
    - signed overflow and division by zero have no defined result: the
      model reports them as faults and computes nothing after them;
    - [/] and [%] truncate towards zero ([Z.quot] and [Z.rem]). *)

From Stdlib Require Import ZArith Lia Bool List.
From Stdlib Require Import Zmod.ZmodInv.
Import ListNotations.

Local Open Scope Z_scope.

(** ** Integer kinds *)

Record int_kind := IntKind { is_signed : bool; bits : Z }.

Definition c_int : int_kind := IntKind true 32.
Definition c_unsigned : int_kind := IntKind false 32.
Definition c_short : int_kind := IntKind true 16.
Definition c_ushort : int_kind := IntKind false 16.
Definition c_long_long : int_kind := IntKind true 64.
Definition c_ulong_long : int_kind := IntKind false 64.

Definition kind_eqb (k1 k2 : int_kind) : bool :=
  Bool.eqb (is_signed k1) (is_signed k2) && (bits k1 =? bits k2).

(** Every C++ integer type has at least 8 bits. *)
Definition well_formed (k : int_kind) : Prop := 8 <= bits k.

Definition min_val (k : int_kind) : Z :=
  if is_signed k then - 2 ^ (bits k - 1) else 0.

Definition max_val (k : int_kind) : Z :=
  if is_signed k then 2 ^ (bits k - 1) - 1 else 2 ^ bits k - 1.

Definition in_range (k : int_kind) (z : Z) : Prop :=
  min_val k <= z <= max_val k.

Definition in_rangeb (k : int_kind) (z : Z) : bool :=
  (min_val k <=? z) && (z <=? max_val k).

(** Conversion of a value to kind [k]: reduction modulo [2 ^ bits]. *)
Definition convert (k : int_kind) (z : Z) : Z :=
  if is_signed k
  then (z + 2 ^ (bits k - 1)) mod 2 ^ bits k - 2 ^ (bits k - 1)
  else z mod 2 ^ bits k.

(** Integer promotion: the kind an operand of kind [k] is computed at.
    It is also the common kind of an [int] operand and a [k] operand. *)
Definition promote (k : int_kind) : int_kind :=
  if bits k <? bits c_int then c_int else k.

(** ** Outcomes of a computation *)

Inductive fault : Set := DivisionByZero | SignedOverflow.

Inductive outcome (A : Type) : Type :=
| Ok (v : A)
| Fault (f : fault)
| OutOfFuel.

Arguments Ok {A} v.
Arguments Fault {A} f.
Arguments OutOfFuel {A}.

Definition bind {A B : Type} (m : outcome A) (k : A -> outcome B) : outcome B :=
  match m with
  | Ok v => k v
  | Fault f => Fault f
  | OutOfFuel => OutOfFuel
  end.

Notation "x <- m ;; k" := (bind m (fun x => k))
  (at level 61, m at next level, right associativity).

(** ** Arithmetic at a kind *)

(** The result of an operation whose exact value is [z], computed at [k]. *)
Definition arith (k : int_kind) (z : Z) : outcome Z :=
  if is_signed k
  then if in_rangeb k z then Ok z else Fault SignedOverflow
  else Ok (z mod 2 ^ bits k).

Definition add (k : int_kind) (x y : Z) : outcome Z := arith k (x + y).
Definition sub (k : int_kind) (x y : Z) : outcome Z := arith k (x - y).
Definition mul (k : int_kind) (x y : Z) : outcome Z := arith k (x * y).
Definition neg (k : int_kind) (x : Z) : outcome Z := arith k (- x).

Definition quot (k : int_kind) (x y : Z) : outcome Z :=
  if y =? 0 then Fault DivisionByZero else arith k (Z.quot x y).

(** [x % y] is defined only where [x / y] is. *)
Definition rem (k : int_kind) (x y : Z) : outcome Z :=
  if y =? 0 then Fault DivisionByZero
  else _ <- arith k (Z.quot x y) ;; Ok (Z.rem x y).

(** ** Integer utilities *)

Definition swapCustom {A : Type} (p : A * A) : A * A := (snd p, fst p).

(** [abs]: [x] itself at [unsigned]; otherwise [(x < 0) ? 0 - x : x], the
    subtraction being computed at the promoted kind and the result
    converted back to the return type.  (For [int], [long] and [long long]
    arguments overload resolution selects the C library's [abs], which has
    the same values and the same undefined case.) *)
Definition abs (T : int_kind) (x : Z) : outcome Z :=
  if kind_eqb T c_unsigned then Ok x
  else if x <? 0
       then d <- sub (promote T) 0 x ;; Ok (convert T d)
       else Ok x.

Definition isEven (a : Z) : bool := Z.land a 1 =? 0.

(** ** GCD engine *)

Fixpoint gcd_loop (T : int_kind) (fuel : nat) (ta tb : Z) : outcome Z :=
  match fuel with
  | O => OutOfFuel
  | S fuel' =>
      if tb =? 0 then Ok ta
      else
        r <- rem (promote T) ta tb ;;
        let '(ta', tb') := swapCustom (convert T r, tb) in
        gcd_loop T fuel' ta' tb'
  end.

Definition gcd_fuel (T : int_kind) : nat := S (S (Z.to_nat (2 * bits T))).

Definition gcd (T : int_kind) (a b : Z) : outcome Z :=
  ta <- abs T a ;;
  tb <- abs T b ;;
  let '(ta, tb) := if ta <? tb then swapCustom (ta, tb) else (ta, tb) in
  gcd_loop T (gcd_fuel T) ta tb.

Definition isCoprime (T : int_kind) (a b : Z) : outcome bool :=
  g <- gcd T a b ;; Ok (g =? 1).

(** ** Modular inverse engine *)

(** The locals [a], [b], [y], [y1] of [invMul]; all four are [int]. *)
Record inv_state := InvState { st_a : Z; st_b : Z; st_y : Z; st_y1 : Z }.

(** One iteration of the [while (b)] body, computed at [int]. *)
Definition invMul_step (s : inv_state) : outcome inv_state :=
  q <- quot c_int (st_a s) (st_b s) ;;
  t <- rem c_int (st_a s) (st_b s) ;;
  p <- mul c_int (st_y1 s) q ;;
  t' <- sub c_int (st_y s) p ;;
  Ok (InvState (st_b s) t (st_y1 s) t').

Fixpoint invMul_loop (fuel : nat) (s : inv_state) : outcome inv_state :=
  match fuel with
  | O => OutOfFuel
  | S fuel' =>
      if st_b s =? 0 then Ok s
      else s' <- invMul_step s ;; invMul_loop fuel' s'
  end.

Definition invMul_fuel : nat := 66%nat.

(** The state the loop of [invMul<T>(valB, valA)] starts from. *)
Definition invMul_init (T : int_kind) (valB valA : Z) : outcome inv_state :=
  a0 <- abs T valA ;;
  b0 <- abs T valB ;;
  Ok (InvState (convert c_int a0) (convert c_int b0) 0 1).

(** The statements after the loop. *)
Definition invMul_finish (T : int_kind) (valB valA : Z) (s : inv_state)
  : outcome Z :=
  if negb (st_a s =? 1) then Ok 0
  else
    y <- (if st_y s <? 0
          then v <- abs T valA ;;
               w <- add (promote T) (convert (promote T) (st_y s)) v ;;
               Ok (convert c_int w)
          else Ok (st_y s)) ;;
    y' <- (if valB <? 0 then neg c_int y else Ok y) ;;
    Ok (convert T y').

Definition invMul (T : int_kind) (valB valA : Z) : outcome Z :=
  s0 <- invMul_init T valB valA ;;
  s <- invMul_loop invMul_fuel s0 ;;
  invMul_finish T valB valA s.

(** ** Modular exponentiation engine *)

Definition modMul (T : int_kind) (a b module : Z) : outcome Z :=
  p <- mul (promote T) a b ;;
  r <- rem (promote T) p module ;;
  Ok (convert T r).

(** Step 2 of [modPow]: [int_type c = a % module]. *)
Definition reduce_base (T : int_kind) (a module : Z) : outcome Z :=
  r <- rem (promote T) a module ;; Ok (convert T r).

(** The [for] loop: the body, then [exp >>= 1, c = modMul(c, c, module)],
    then the test of [exp]. *)
Fixpoint modPow_loop (T : int_kind) (fuel : nat) (exp c f module : Z)
  : outcome Z :=
  match fuel with
  | O => OutOfFuel
  | S fuel' =>
      if exp =? 0 then Ok f
      else
        f' <- (if negb (isEven exp) then modMul T f c module else Ok f) ;;
        let exp' := convert T (Z.shiftr exp 1) in
        c' <- modMul T c c module ;;
        modPow_loop T fuel' exp' c' f' module
  end.

Definition modPow_fuel (T : int_kind) : nat := S (Z.to_nat (bits T)).

Definition modPow (T : int_kind) (a n module : Z) : outcome Z :=
  if n =? 0 then Ok 1
  else
    c <- reduce_base T a module ;;
    c' <- (if n <? 0 then invMul T c module else Ok c) ;;
    exp <- abs T n ;;
    modPow_loop T (modPow_fuel T) exp c' 1 module.

(** ** Predicates used in the statements *)

(** What the loop maintains once [b < a], for the run started from
    [a = A], [b = B], [y = 0], [y1 = 1]. *)
Record inv_ok (A B : Z) (s : inv_state) : Prop := InvOk {
  inv_order : 0 <= st_b s < st_a s /\ st_a s <= max_val c_int;
  inv_weight : st_a s * Z.abs (st_y1 s) + st_b s * Z.abs (st_y s) = A;
  inv_signs : (st_y s <= 0 <= st_y1 s) \/ (st_y1 s <= 0 <= st_y s);
  inv_cong_a : (A | B * st_y s - st_a s);
  inv_cong_b : (A | B * st_y1 s - st_b s);
  inv_gcd : Z.gcd (st_a s) (st_b s) = Z.gcd A B;
  inv_final : st_b s = 0 -> st_a s = 1 -> 2 <= A -> Z.abs (st_y s) < A;
  inv_ybound : Z.abs (st_y s) <= Z.max 1 A;
  inv_small : A <= 1 -> 0 <= st_y s /\ 0 <= st_y1 s
}.

(** [x] and its absolute value are values of [T] and of [int]. *)
Definition representable (T : int_kind) (x : Z) : Prop :=
  in_range T x /\ Z.abs x <= max_val T /\ Z.abs x <= max_val c_int.

(** The value the statements after the loop compute from the final state,
    [A] being the absolute value of the modulus argument. *)
Definition invMul_result (valB A : Z) (s : inv_state) : Z :=
  if negb (st_a s =? 1) then 0
  else
    let y := if st_y s <? 0 then st_y s + A else st_y s in
    if valB <? 0 then - y else y.

Definition int_state (s : inv_state) : Prop :=
  in_range c_int (st_a s) /\ in_range c_int (st_b s) /\
  in_range c_int (st_y s) /\ in_range c_int (st_y1 s).

(** The range of an inverse: [[0, |a|)], sign-flipped when [b] is
    negative. *)
Definition inverse_range (b a x : Z) : Prop :=
  if b <? 0 then - Z.abs a < x <= 0 else 0 <= x < Z.abs a.

(** [invMul<T>(b, a)] returns an inverse of [b] modulo [a] in that range;
    [mod] is the [%] of the source. *)
Definition inverse_claim (T : int_kind) (b a : Z) : Prop :=
  exists x, invMul T b a = Ok x /\ inverse_range b a x /\ Z.rem (b * x) a = 1.

(** The products [modMul] forms from operands reduced modulo [m] do not
    overflow the kind they are computed at. *)
Definition products_fit (T : int_kind) (m : Z) : Prop :=
  (m - 1) * (m - 1) <= max_val (promote T).

(** Trial division, to check small primes by computation. *)
Definition prime_check (p : Z) : bool :=
  (1 <? p) &&
  forallb (fun d => negb (p mod d =? 0))
          (map Z.of_nat (seq 2 (Z.to_nat (p - 2)))).

(** The states the loop of [invMul] passes through from a given state. *)
Inductive invMul_reaches : inv_state -> inv_state -> Prop :=
| reaches_here (s : inv_state) : invMul_reaches s s
| reaches_step (s s' s'' : inv_state) :
    st_b s <> 0 -> invMul_step s = Ok s' ->
    invMul_reaches s' s'' -> invMul_reaches s s''.

(** ** The driver *)

Definition PRIMES : list Z :=
  [2; 3; 5; 7; 11; 13; 17; 19; 23; 29; 31; 37; 41; 43; 47;
   53; 59; 61; 67; 71; 73; 79; 83; 89; 97; 101; 103; 107; 109; 113;
   127; 131; 137; 139; 149; 151; 157; 163; 167; 173; 179; 181; 191; 193; 197;
   199; 211; 223; 227; 229; 233; 239; 241; 251].

(** [size_t], the type of [sizeof]. *)
Definition c_size_t : int_kind := IntKind false 64.

(** [PRIMES[rand() % sizeof(PRIMES)]], [r] being the value [rand()]
    returns; the elements are one byte each, so [sizeof(PRIMES)] is their
    number. *)
Definition pick_prime (r : Z) : outcome Z :=
  i <- rem c_size_t (convert c_size_t r) (Z.of_nat (length PRIMES)) ;;
  Ok (nth (Z.to_nat i) PRIMES 0).

(** [while (!isCoprime(e, Phi)) e += 2;] *)
Fixpoint select_e (fuel : nat) (e Phi : Z) : outcome Z :=
  match fuel with
  | O => OutOfFuel
  | S fuel' =>
      c <- isCoprime c_unsigned e Phi ;;
      if c then Ok e
      else e' <- add c_unsigned e 2 ;; select_e fuel' e' Phi
  end.

Definition select_e_fuel (Phi : Z) : nat := S (Z.to_nat Phi).

(** The values [main] prints. *)
Record rsa_run := RsaRun {
  run_P : Z; run_Q : Z; run_N : Z; run_Phi : Z;
  run_e : Z; run_d : Z; run_M : Z; run_C : Z; run_M' : Z
}.

(** [main], all of whose variables are [unsigned]: [r1], [r2] and [r3] are
    the values the three calls of [rand()] return and [input] is the number
    read from [cin]. *)
Definition main_run (r1 r2 r3 input : Z) : outcome rsa_run :=
  P <- pick_prime r1 ;;
  Q <- pick_prime r2 ;;
  N <- mul c_unsigned P Q ;;
  P1 <- sub c_unsigned P 1 ;;
  Q1 <- sub c_unsigned Q 1 ;;
  Phi <- mul c_unsigned P1 Q1 ;;
  x <- rem c_unsigned (convert c_unsigned r3) Phi ;;
  e <- select_e (select_e_fuel Phi) (Z.lor x 1) Phi ;;
  d <- invMul c_unsigned e Phi ;;
  M <- rem c_unsigned input N ;;
  C <- modPow c_unsigned M e N ;;
  M' <- modPow c_unsigned C d N ;;
  Ok (RsaRun P Q N Phi e d M C M').

(** * Properties *)

(** Closed facts (ranges of concrete values, runs on concrete inputs) are
    settled by evaluation. *)
Ltac by_computation :=
  repeat split; vm_compute; first [reflexivity | discriminate].

(** ** Kinds, conversions and fault-free arithmetic *)

Lemma pow2_pos (n : Z) : 0 <= n -> 0 < 2 ^ n.
Proof. intros; apply Z.pow_pos_nonneg; lia. Qed.

Lemma pow2_split (n : Z) : 1 <= n -> 2 ^ n = 2 * 2 ^ (n - 1).
Proof.
  intros H. replace n with (Z.succ (n - 1)) at 1 by lia.
  apply Z.pow_succ_r; lia.
Qed.

Lemma pow2_mono (n m : Z) : 0 <= n <= m -> 2 ^ n <= 2 ^ m.
Proof. intros; apply Z.pow_le_mono_r; lia. Qed.

Lemma min_val_nonpos (k : int_kind) : well_formed k -> min_val k <= 0.
Proof.
  unfold well_formed, min_val; intros H.
  destruct (is_signed k); [|lia].
  pose proof (pow2_pos (bits k - 1)); lia.
Qed.

Lemma max_val_ge_127 (k : int_kind) : well_formed k -> 127 <= max_val k.
Proof.
  unfold well_formed, max_val; intros H.
  pose proof (pow2_mono 7 (bits k - 1)) as H7.
  pose proof (pow2_mono 7 (bits k)) as H8.
  change (2 ^ 7) with 128 in *.
  destruct (is_signed k); lia.
Qed.

Lemma in_rangeb_true (k : int_kind) (z : Z) :
  in_range k z -> in_rangeb k z = true.
Proof.
  unfold in_range, in_rangeb; intros [H1 H2].
  apply andb_true_intro; split; apply Z.leb_le; assumption.
Qed.

Lemma in_rangeb_spec (k : int_kind) (z : Z) :
  in_rangeb k z = true <-> in_range k z.
Proof.
  split; [|apply in_rangeb_true].
  unfold in_range, in_rangeb; intros H.
  apply andb_prop in H; destruct H as [H1 H2].
  apply Z.leb_le in H1; apply Z.leb_le in H2; lia.
Qed.

Lemma convert_in_range (k : int_kind) (z : Z) :
  well_formed k -> in_range k z -> convert k z = z.
Proof.
  unfold well_formed, in_range, convert, min_val, max_val; intros Hw Hr.
  pose proof (pow2_split (bits k)) as Hs.
  pose proof (pow2_pos (bits k - 1)) as Hp.
  destruct (is_signed k).
  - rewrite Z.mod_small by lia. lia.
  - apply Z.mod_small; lia.
Qed.

Lemma convert_range (k : int_kind) (z : Z) :
  well_formed k -> in_range k (convert k z).
Proof.
  unfold well_formed, in_range, convert, min_val, max_val; intros Hw.
  pose proof (pow2_split (bits k)) as Hs.
  pose proof (pow2_pos (bits k - 1)) as Hp.
  destruct (is_signed k).
  - pose proof (Z.mod_pos_bound (z + 2 ^ (bits k - 1)) (2 ^ bits k)); lia.
  - pose proof (Z.mod_pos_bound z (2 ^ bits k)); lia.
Qed.

Lemma arith_in_range (k : int_kind) (z : Z) :
  well_formed k -> in_range k z -> arith k z = Ok z.
Proof.
  intros Hw Hr; unfold arith.
  rewrite (in_rangeb_true _ _ Hr).
  destruct (is_signed k) eqn:Hs; [reflexivity|].
  f_equal. unfold in_range, min_val, max_val in Hr; rewrite Hs in Hr.
  apply Z.mod_small; lia.
Qed.

Lemma arith_Ok_range (k : int_kind) (z v : Z) :
  well_formed k -> arith k z = Ok v -> in_range k v.
Proof.
  unfold arith; intros Hw H.
  destruct (is_signed k) eqn:Hs.
  - destruct (in_rangeb k z) eqn:Hr; [|discriminate].
    injection H as <-. apply in_rangeb_spec; assumption.
  - injection H as <-.
    unfold well_formed in Hw.
    unfold in_range, min_val, max_val; rewrite Hs.
    pose proof (Z.mod_pos_bound z (2 ^ bits k) (pow2_pos (bits k) ltac:(lia))); lia.
Qed.

Lemma well_formed_c_int : well_formed c_int.
Proof. unfold well_formed; simpl; lia. Qed.

Lemma well_formed_promote (T : int_kind) :
  well_formed T -> well_formed (promote T).
Proof.
  unfold promote; intros H.
  destruct (bits T <? bits c_int); [apply well_formed_c_int | assumption].
Qed.

Lemma promote_cases (T : int_kind) :
  (bits T < 32 /\ promote T = c_int) \/ (32 <= bits T /\ promote T = T).
Proof.
  unfold promote; change (bits c_int) with 32.
  destruct (Z.ltb_spec (bits T) 32); [left | right]; split; auto.
Qed.

Lemma promote_range (T : int_kind) (z : Z) :
  well_formed T -> in_range T z -> in_range (promote T) z.
Proof.
  intros Hw Hr.
  destruct (promote_cases T) as [[Hb ->] | [Hb ->]]; [|assumption].
  unfold well_formed in Hw.
  pose proof (pow2_mono (bits T - 1) 31) as H1.
  pose proof (pow2_mono (bits T) 31) as H2.
  pose proof (pow2_pos (bits T - 1)) as H3.
  change (2 ^ 31) with 2147483648 in H1, H2.
  unfold in_range, min_val, max_val in *.
  change (is_signed c_int) with true; cbv iota.
  change (2 ^ (bits c_int - 1)) with 2147483648.
  destruct (is_signed T); lia.
Qed.

Lemma max_val_int_promote (T : int_kind) :
  well_formed T -> max_val c_int <= max_val (promote T).
Proof.
  intros Hw.
  destruct (promote_cases T) as [[Hb ->] | [Hb ->]]; [lia|].
  pose proof (pow2_mono 31 (bits T - 1)) as H1.
  pose proof (pow2_mono 31 (bits T)) as H2.
  change (2 ^ 31) with 2147483648 in H1, H2.
  unfold max_val. change (is_signed c_int) with true; cbv iota.
  change (2 ^ (bits c_int - 1)) with 2147483648.
  destruct (is_signed T); lia.
Qed.

Lemma max_val_promote (T : int_kind) :
  well_formed T -> max_val T <= max_val (promote T).
Proof.
  intros Hw.
  pose proof (max_val_ge_127 T Hw).
  pose proof (min_val_nonpos T Hw).
  assert (Hr : in_range T (max_val T)) by (unfold in_range; lia).
  apply promote_range in Hr; [|assumption].
  unfold in_range in Hr; lia.
Qed.

(** A non-negative value below [max_val] is in range whatever the
    signedness. *)
Lemma nonneg_in_range (k : int_kind) (z : Z) :
  well_formed k -> 0 <= z <= max_val k -> in_range k z.
Proof.
  intros Hw H. pose proof (min_val_nonpos k Hw).
  unfold in_range; lia.
Qed.

Lemma unsigned_nonneg (k : int_kind) (z : Z) :
  is_signed k = false -> in_range k z -> 0 <= z.
Proof.
  unfold in_range, min_val; intros ->; lia.
Qed.

Lemma min_val_signed_bound (k : int_kind) :
  well_formed k -> is_signed k = true -> min_val k = - max_val k - 1.
Proof.
  unfold min_val, max_val; intros _ ->; lia.
Qed.

Lemma kind_eqb_unsigned (T : int_kind) :
  kind_eqb T c_unsigned = true -> is_signed T = false.
Proof.
  unfold kind_eqb; simpl; intros H.
  apply andb_prop in H; destruct H as [H _].
  destruct (is_signed T); [discriminate | reflexivity].
Qed.

(** [abs] on a value whose absolute value is representable. *)
Lemma abs_Ok (T : int_kind) (x : Z) :
  well_formed T -> in_range T x -> Z.abs x <= max_val T ->
  abs T x = Ok (Z.abs x).
Proof.
  intros Hw Hr Ha; unfold abs.
  destruct (kind_eqb T c_unsigned) eqn:Hk.
  - apply kind_eqb_unsigned in Hk.
    pose proof (unsigned_nonneg _ _ Hk Hr). f_equal; lia.
  - destruct (Z.ltb_spec x 0) as [Hneg | Hpos]; [|f_equal; lia].
    unfold sub.
    assert (Hn : in_range T (0 - x)) by (apply nonneg_in_range; auto; lia).
    rewrite arith_in_range;
      [| apply well_formed_promote; assumption
       | apply promote_range; assumption ].
    simpl. rewrite convert_in_range by assumption. f_equal; lia.
Qed.

(** A measure that at least halves at each step is used up by the fuel. *)
Lemma halve_measure (fuel : nat) (m m' : Z) :
  0 <= m' -> 2 * m' < m -> m < 2 ^ (Z.of_nat (S fuel) - 1) ->
  m' < 2 ^ (Z.of_nat fuel - 1).
Proof.
  intros H0 H2 Hm. destruct fuel as [|fuel]; [simpl in Hm; lia|].
  rewrite Nat2Z.inj_succ in Hm.
  replace (Z.succ (Z.of_nat (S fuel)) - 1)
    with (Z.succ (Z.of_nat (S fuel) - 1)) in Hm by lia.
  rewrite Z.pow_succ_r in Hm by lia. lia.
Qed.

Lemma quot_Ok (k : int_kind) (x y : Z) :
  well_formed k -> y <> 0 -> in_range k (Z.quot x y) ->
  quot k x y = Ok (Z.quot x y).
Proof.
  intros Hw Hy Hr; unfold quot.
  destruct (Z.eqb_spec y 0); [contradiction|].
  apply arith_in_range; assumption.
Qed.

Lemma rem_Ok (k : int_kind) (x y : Z) :
  well_formed k -> y <> 0 -> in_range k (Z.quot x y) ->
  rem k x y = Ok (Z.rem x y).
Proof.
  intros Hw Hy Hr; unfold rem.
  destruct (Z.eqb_spec y 0); [contradiction|].
  rewrite arith_in_range by assumption. reflexivity.
Qed.

(** ** The loop of [invMul] *)


Lemma int_range_abs (z : Z) :
  Z.abs z <= max_val c_int -> in_range c_int z.
Proof.
  unfold in_range, min_val, max_val; simpl. lia.
Qed.

Section InvMulLoop.

Variables A B : Z.
Hypothesis HA : A <= max_val c_int.

Lemma invMul_step_ok (s : inv_state) :
  inv_ok A B s -> st_b s <> 0 ->
  exists s', invMul_step s = Ok s' /\ inv_ok A B s' /\
             2 * (st_a s' * st_b s') < st_a s * st_b s.
Proof.
  intros [Ho Hwt Hsg Hca Hcb Hg Hf Hyb Hsm] Hb.
  destruct s as [a b y y1]; cbn [st_a st_b st_y st_y1] in *.
  pose proof well_formed_c_int as Hwf.
  assert (Hq : Z.quot a b = a / b) by (apply Z.quot_div_nonneg; lia).
  assert (Hr : Z.rem a b = a mod b) by (apply Z.rem_mod_nonneg; lia).
  pose proof (Z.div_mod a b Hb) as Hdm.
  pose proof (Z.mod_pos_bound a b ltac:(lia)) as Hmb.
  assert (Hq1 : 1 <= a / b).
  { apply Z.div_le_lower_bound; lia. }
  set (q := a / b) in *. set (r := a mod b) in *.
  assert (Hqa : q <= a) by nia.
  assert (Hy1' : Z.abs (y - y1 * q) = Z.abs y + q * Z.abs y1).
  { destruct Hsg as [[H1 H2] | [H1 H2]].
    - assert (0 <= y1 * q) by nia. lia.
    - assert (y1 * q <= 0) by nia.
      replace (q * Z.abs y1) with (- (y1 * q)) by (rewrite Z.abs_neq by lia; ring).
      lia. }
  assert (Hw' : b * Z.abs (y - y1 * q) + r * Z.abs y1 = A).
  { rewrite Hy1', <- Hwt.
    replace (a * Z.abs y1) with ((b * q + r) * Z.abs y1)
      by (rewrite <- Hdm; reflexivity).
    ring. }
  assert (Hb1 : Z.abs (y - y1 * q) <= A).
  { pose proof (Z.abs_nonneg (y - y1 * q)). pose proof (Z.abs_nonneg y1). nia. }
  assert (Hb2 : Z.abs (y1 * q) <= A).
  { rewrite Z.abs_mul, (Z.abs_eq q) by lia.
    pose proof (Z.abs_nonneg y). lia. }
  exists (InvState b r y1 (y - y1 * q)).
  split; [|split].
  - unfold invMul_step; simpl.
    rewrite quot_Ok, rem_Ok; auto;
      try (rewrite Hq; apply int_range_abs; lia).
    simpl. unfold mul, sub. rewrite Hq.
    rewrite arith_in_range; auto; [|apply int_range_abs; lia].
    simpl. rewrite arith_in_range; auto; [|apply int_range_abs; lia].
    simpl. rewrite Hr. reflexivity.
  - constructor; simpl.
    + lia.
    + exact Hw'.
    + destruct Hsg as [[H1 H2] | [H1 H2]]; [right | left]; nia.
    + exact Hcb.
    + replace (B * (y - y1 * q) - r)
        with ((B * y - (b * q + r)) - q * (B * y1 - b)) by ring.
      rewrite <- Hdm.
      apply Z.divide_sub_r; [assumption|].
      apply Z.divide_mul_r; assumption.
    + rewrite <- Hg. unfold r.
      rewrite Z.gcd_comm. rewrite Z.gcd_mod by assumption.
      apply Z.gcd_comm.
    + intros Hr0 Hb1' HA2. subst b.
      pose proof (Z.abs_nonneg y). pose proof (Z.abs_nonneg y1). nia.
    + pose proof (Z.abs_nonneg y). pose proof (Z.abs_nonneg y1). nia.
    + (* [A <= 1]: [a >= 2] leaves no weight for [y1] *)
      intros HA1. specialize (Hsm HA1).
      pose proof (Z.abs_nonneg y).
      assert (Hz0 : Z.abs y1 = 0) by nia.
      assert (Hz : y1 = 0) by lia.
      split; [lia|]. rewrite Hz, Z.mul_0_l. lia.
  - cbn [st_a st_b].
    assert (b <= b * q) by nia.
    assert (2 * r < a) by lia.
    assert (0 < (a - 2 * r) * b) by (apply Z.mul_pos_pos; lia).
    lia.
Qed.

Lemma invMul_loop_ok (fuel : nat) :
  forall s : inv_state,
    inv_ok A B s ->
    st_a s * st_b s < 2 ^ (Z.of_nat fuel - 1) ->
    exists s', invMul_loop fuel s = Ok s' /\ inv_ok A B s' /\ st_b s' = 0.
Proof.
  induction fuel as [|fuel IH]; intros s Hinv Hm.
  - pose proof (inv_order _ _ _ Hinv). simpl in Hm. nia.
  - simpl. destruct (Z.eqb_spec (st_b s) 0) as [Hb | Hb].
    + exists s; auto.
    + destruct (invMul_step_ok s Hinv Hb) as (s' & Hs & Hinv' & Hlt).
      rewrite Hs; simpl. apply IH; [assumption|].
      pose proof (inv_order _ _ _ Hinv').
      apply (halve_measure fuel (st_a s * st_b s)); [nia | lia | assumption].
Qed.

End InvMulLoop.

Lemma invMul_loop_S (fuel : nat) (s : inv_state) :
  invMul_loop (S fuel) s =
  if st_b s =? 0 then Ok s else s' <- invMul_step s ;; invMul_loop fuel s'.
Proof. reflexivity. Qed.

Lemma invMul_step_int (a b y y1 : Z) :
  b <> 0 ->
  in_range c_int (Z.quot a b) ->
  in_range c_int (y1 * Z.quot a b) ->
  in_range c_int (y - y1 * Z.quot a b) ->
  invMul_step (InvState a b y y1) =
  Ok (InvState b (Z.rem a b) y1 (y - y1 * Z.quot a b)).
Proof.
  intros Hb H1 H2 H3. unfold invMul_step; cbn [st_a st_b st_y st_y1].
  pose proof well_formed_c_int.
  rewrite quot_Ok, rem_Ok by assumption. cbn [bind].
  unfold mul, sub. rewrite arith_in_range by assumption. cbn [bind].
  rewrite arith_in_range by assumption. reflexivity.
Qed.

(** The run of the loop from the state [invMul] starts it in. *)
Lemma invMul_loop_init (A B : Z) :
  0 <= A <= max_val c_int -> 0 <= B <= max_val c_int ->
  exists s,
    invMul_loop invMul_fuel (InvState A B 0 1) = Ok s /\
    st_a s = Z.gcd A B /\
    Z.abs (st_y s) <= Z.max 1 A /\
    (A <= 1 -> 0 <= st_y s) /\
    (Z.gcd A B = 1 -> 2 <= A ->
     Z.abs (st_y s) < A /\ (A | B * st_y s - 1)).
Proof.
  intros HA HB.
  assert (Hmax : max_val c_int = 2147483647) by reflexivity.
  assert (Hfin : forall s, inv_ok A B s -> st_b s = 0 ->
            st_a s = Z.gcd A B /\
            Z.abs (st_y s) <= Z.max 1 A /\
            (A <= 1 -> 0 <= st_y s) /\
            (Z.gcd A B = 1 -> 2 <= A ->
             Z.abs (st_y s) < A /\ (A | B * st_y s - 1))).
  { intros s Hinv Hb0.
    pose proof (inv_order _ _ _ Hinv) as Ho.
    pose proof (inv_gcd _ _ _ Hinv) as Hg.
    rewrite Hb0, Z.gcd_0_r, Z.abs_eq in Hg by lia.
    split; [assumption|].
    split; [apply (inv_ybound _ _ _ Hinv)|].
    split; [intros HA1; apply (inv_small _ _ _ Hinv HA1)|].
    intros Hg1 HA2. split.
    - apply (inv_final _ _ _ Hinv); [assumption | congruence | assumption].
    - pose proof (inv_cong_a _ _ _ Hinv) as Hc.
      rewrite Hg, Hg1 in Hc. exact Hc. }
  destruct (Z.lt_trichotomy B A) as [Hlt | [Heq | Hgt]].
  - (* B < A: the invariant holds at once *)
    assert (Hinv : inv_ok A B (InvState A B 0 1)).
    { constructor; cbn [st_a st_b st_y st_y1]; try lia.
      - replace (B * 0 - A) with (- A) by ring.
        apply Z.divide_opp_r, Z.divide_refl.
      - replace (B * 1 - B) with 0 by ring. apply Z.divide_0_r. }
    destruct (invMul_loop_ok A B (proj2 HA) invMul_fuel _ Hinv)
      as (s & Hs & Hinv' & Hb0).
    { cbn [st_a st_b]. change (2 ^ (Z.of_nat invMul_fuel - 1)) with (2 ^ 65).
      assert (A * B <= 2147483647 * 2147483647) by nia. lia. }
    exists s; split; [assumption | auto].
  - (* B = A: at most one iteration *)
    subst B. rewrite Z.gcd_diag, Z.abs_eq by lia.
    destruct (Z.eq_dec A 0) as [-> | HA0].
    + exists (InvState 0 0 0 1); split; [reflexivity|].
      cbn [st_a st_y]. repeat split; intros; lia.
    + exists (InvState A 0 1 (-1)).
      assert (Hq : Z.quot A A = 1) by (apply Z.quot_same; assumption).
      assert (Hr : Z.rem A A = 0) by (apply Z.rem_same; assumption).
      split; [|cbn [st_a st_y]; repeat split; intros; lia].
      unfold invMul_fuel. rewrite invMul_loop_S. cbn [st_b].
      destruct (Z.eqb_spec A 0); [contradiction|].
      rewrite invMul_step_int; rewrite ?Hq, ?Hr;
        try (apply int_range_abs; lia); try assumption.
      reflexivity.
  - (* A < B: the first iteration exchanges the two *)
    assert (Hq : Z.quot A B = 0) by (apply Z.quot_small; lia).
    assert (Hr : Z.rem A B = A) by (apply Z.rem_small; lia).
    assert (Hinv : inv_ok A B (InvState B A 1 0)).
    { constructor; cbn [st_a st_b st_y st_y1]; try lia.
      - replace (B * 1 - B) with 0 by ring. apply Z.divide_0_r.
      - replace (B * 0 - A) with (- A) by ring.
        apply Z.divide_opp_r, Z.divide_refl.
      - apply Z.gcd_comm. }
    destruct (invMul_loop_ok A B (proj2 HA) 65%nat _ Hinv)
      as (s & Hs & Hinv' & Hb0).
    { cbn [st_a st_b]. change (2 ^ (Z.of_nat 65 - 1)) with (2 ^ 64).
      assert (B * A <= 2147483647 * 2147483647) by nia. lia. }
    exists s; split; [|auto].
    unfold invMul_fuel. rewrite invMul_loop_S. cbn [st_b].
    destruct (Z.eqb_spec B 0); [lia|].
    rewrite invMul_step_int; rewrite ?Hq, ?Hr;
      try (apply int_range_abs; lia); try lia.
    cbn [bind]. replace (0 - 1 * 0) with 0 by ring. exact Hs.
Qed.

(** ** [invMul] on arguments that fit *)



Lemma convert_int_mod (M z : Z) :
  (2 ^ 32 | M) -> 0 < M -> convert c_int (z mod M) = convert c_int z.
Proof.
  intros Hd HM. unfold convert; cbn [is_signed bits c_int].
  f_equal.
  rewrite <- (Zplus_mod_idemp_l (z mod M)), <- (Zplus_mod_idemp_l z).
  rewrite Z.mod_mod_divide by assumption. reflexivity.
Qed.

(** [y += abs(valA)] for a negative [int] [y]: computed at the common kind
    of [int] and [T], stored back into an [int]. *)
Lemma add_promote_int (T : int_kind) (y v : Z) :
  well_formed T -> in_range c_int y -> y < 0 -> 0 <= v <= max_val c_int ->
  exists w, add (promote T) (convert (promote T) y) v = Ok w /\
            convert c_int w = y + v.
Proof.
  intros Hw Hy Hneg Hv.
  pose proof (well_formed_promote T Hw) as Hwp.
  pose proof (max_val_int_promote T Hw) as Hmp.
  assert (Hs : in_range c_int (y + v)).
  { unfold in_range, min_val, max_val in *; cbn [is_signed bits c_int] in *.
    lia. }
  destruct (is_signed (promote T)) eqn:Hsg.
  - assert (Hin : forall z, in_range c_int z -> in_range (promote T) z).
    { intros z Hz.
      pose proof (min_val_signed_bound _ Hwp Hsg).
      unfold in_range in *.
      change (min_val c_int) with (- max_val c_int - 1) in Hz. lia. }
    exists (y + v). rewrite (convert_in_range _ y) by auto.
    split; [apply arith_in_range; auto|].
    apply convert_in_range; [apply well_formed_c_int | assumption].
  - exists ((convert (promote T) y + v) mod 2 ^ bits (promote T)).
    split; [unfold add, arith; rewrite Hsg; reflexivity|].
    unfold convert at 2; rewrite Hsg.
    rewrite Zplus_mod_idemp_l.
    assert (Hb : 32 <= bits (promote T)).
    { destruct (promote_cases T) as [[_ E] | [Hb E]]; rewrite E in *;
        [discriminate | assumption]. }
    rewrite convert_int_mod.
    + apply convert_in_range; [apply well_formed_c_int | assumption].
    + exists (2 ^ (bits (promote T) - 32)).
      rewrite <- Z.pow_add_r by lia. f_equal; lia.
    + apply pow2_pos; lia.
Qed.

Lemma invMul_finish_ok (T : int_kind) (valB valA : Z) (s : inv_state) :
  well_formed T -> representable T valA ->
  Z.abs (st_y s) <= max_val c_int ->
  invMul_finish T valB valA s =
  Ok (convert T (invMul_result valB (Z.abs valA) s)) /\
  in_range c_int (invMul_result valB (Z.abs valA) s).
Proof.
  intros Hw (HrA & HmA & HiA) Hy.
  pose proof well_formed_c_int as Hwi.
  assert (Hmax : max_val c_int = 2147483647) by reflexivity.
  assert (Hc0 : forall z, Z.abs z <= max_val c_int -> in_range c_int z)
    by (intros; apply int_range_abs; assumption).
  unfold invMul_finish, invMul_result.
  destruct (negb (st_a s =? 1)).
  { assert (Hz : convert T 0 = 0).
    { apply convert_in_range; [assumption|].
      apply nonneg_in_range; [assumption|].
      pose proof (Z.abs_nonneg valA); lia. }
    rewrite Hz. split; [reflexivity | apply Hc0; simpl; lia]. }
  assert (Hy1 : exists y,
    (if st_y s <? 0
     then v <- abs T valA ;;
          w <- add (promote T) (convert (promote T) (st_y s)) v ;;
          Ok (convert c_int w)
     else Ok (st_y s)) = Ok y /\
    y = (if st_y s <? 0 then st_y s + Z.abs valA else st_y s) /\
    Z.abs y <= max_val c_int).
  { destruct (Z.ltb_spec (st_y s) 0) as [Hneg | Hpos].
    - rewrite abs_Ok by assumption. cbn [bind].
      pose proof (Z.abs_nonneg valA) as Hnn.
      destruct (add_promote_int T (st_y s) (Z.abs valA) Hw (Hc0 _ Hy) Hneg
                  (conj Hnn HiA)) as (w & Hadd & Hc).
      rewrite Hadd; cbn [bind]. rewrite Hc.
      eexists; split; [reflexivity | split; [reflexivity | lia]].
    - eexists; split; [reflexivity | split; [reflexivity | lia]]. }
  destruct Hy1 as (y & -> & Hyv & Hyb). cbn [bind]. rewrite <- Hyv.
  destruct (valB <? 0).
  - unfold neg. rewrite arith_in_range; auto; [|apply int_range_abs; lia].
    split; [reflexivity | apply int_range_abs; lia].
  - split; [reflexivity | apply int_range_abs; lia].
Qed.

Lemma invMul_init_ok (T : int_kind) (valB valA : Z) :
  well_formed T -> representable T valA -> representable T valB ->
  invMul_init T valB valA = Ok (InvState (Z.abs valA) (Z.abs valB) 0 1).
Proof.
  intros Hw (HrA & HmA & HiA) (HrB & HmB & HiB).
  unfold invMul_init. rewrite !abs_Ok by assumption. cbn [bind].
  rewrite !convert_in_range;
    auto using well_formed_c_int; apply int_range_abs; lia.
Qed.

(** [invMul] returns: the loop ends on the last remainder of the Euclidean
    chain, and the result is computed from the state it ends in. *)
Lemma invMul_total (T : int_kind) (valB valA : Z) :
  well_formed T -> representable T valA -> representable T valB ->
  exists s,
    invMul_loop invMul_fuel (InvState (Z.abs valA) (Z.abs valB) 0 1) = Ok s /\
    st_a s = Z.gcd valA valB /\
    invMul T valB valA = Ok (convert T (invMul_result valB (Z.abs valA) s)) /\
    in_range c_int (invMul_result valB (Z.abs valA) s) /\
    (Z.gcd valA valB = 1 -> 2 <= Z.abs valA ->
     Z.abs (st_y s) < Z.abs valA /\
     (Z.abs valA | Z.abs valB * st_y s - 1)).
Proof.
  intros Hw HA HB.
  pose proof HA as (HrA & HmA & HiA). pose proof HB as (HrB & HmB & HiB).
  destruct (invMul_loop_init (Z.abs valA) (Z.abs valB))
    as (s & Hs & Hg & Hyb & _ & Hcop); try lia.
  rewrite Z.gcd_abs_l, Z.gcd_abs_r in *.
  exists s. split; [assumption|]. split; [assumption|].
  assert (Hmax : max_val c_int = 2147483647) by reflexivity.
  destruct (invMul_finish_ok T valB valA s Hw HA) as [Hf Hr]; [lia|].
  split; [|split; assumption].
  unfold invMul. rewrite invMul_init_ok by assumption. cbn [bind].
  rewrite Hs. cbn [bind]. exact Hf.
Qed.

Lemma representable_in_range (T : int_kind) (x v : Z) :
  well_formed T -> representable T x ->
  Z.abs v <= Z.abs x -> (is_signed T = false -> 0 <= v) ->
  in_range T v.
Proof.
  intros Hw (Hr & Hm & _) Hv Hu.
  destruct (is_signed T) eqn:Hs.
  - pose proof (min_val_signed_bound T Hw Hs). unfold in_range. lia.
  - apply nonneg_in_range; [assumption|]. specialize (Hu eq_refl). lia.
Qed.

(** The inverse found for coprime arguments, up to the sign of [valB]. *)
Lemma invMul_coprime (T : int_kind) (valB valA : Z) :
  well_formed T -> representable T valA -> representable T valB ->
  Z.gcd valA valB = 1 -> 2 <= Z.abs valA ->
  exists r,
    invMul T valB valA = Ok (if valB <? 0 then - r else r) /\
    0 <= r < Z.abs valA /\
    (Z.abs valA | Z.abs valB * r - 1).
Proof.
  intros Hw HA HB Hg HA2.
  destruct (invMul_total T valB valA Hw HA HB)
    as (s & Hs & Ha & Hres & Hrng & Hcop).
  destruct (Hcop Hg HA2) as [Hyb Hdiv].
  set (r := if st_y s <? 0 then st_y s + Z.abs valA else st_y s).
  assert (Hr : 0 <= r < Z.abs valA).
  { unfold r. destruct (Z.ltb_spec (st_y s) 0); lia. }
  assert (HR : invMul_result valB (Z.abs valA) s =
               if valB <? 0 then - r else r).
  { unfold invMul_result. rewrite Ha, Hg. reflexivity. }
  exists r. split; [|split; [assumption|]].
  - rewrite Hres, HR. f_equal. apply convert_in_range; [assumption|].
    apply (representable_in_range T valA); auto.
    + destruct (valB <? 0); lia.
    + intros Hu. destruct HB as (HrB & _).
      pose proof (unsigned_nonneg T valB Hu HrB).
      destruct (Z.ltb_spec valB 0); lia.
  - unfold r. destruct (Z.ltb_spec (st_y s) 0); [|assumption].
    replace (Z.abs valB * (st_y s + Z.abs valA) - 1)
      with ((Z.abs valB * st_y s - 1) + Z.abs valB * Z.abs valA) by ring.
    apply Z.divide_add_r; [assumption|].
    apply Z.divide_mul_r, Z.divide_refl.
Qed.

(** No inverse: the failure value. *)
Lemma invMul_not_coprime (T : int_kind) (valB valA : Z) :
  well_formed T -> representable T valA -> representable T valB ->
  Z.gcd valA valB <> 1 ->
  invMul T valB valA = Ok 0.
Proof.
  intros Hw HA HB Hg.
  destruct (invMul_total T valB valA Hw HA HB)
    as (s & Hs & Ha & Hres & Hrng & Hcop).
  rewrite Hres. unfold invMul_result.
  destruct (Z.eqb_spec (st_a s) 1) as [E | E]; [congruence|].
  cbn [negb]. f_equal. apply convert_in_range; [assumption|].
  apply nonneg_in_range; [assumption|].
  destruct HA as (_ & HmA & _). pose proof (Z.abs_nonneg valA). lia.
Qed.

Lemma representable_int (T : int_kind) (x : Z) :
  representable T x -> representable c_int x.
Proof.
  intros (_ & _ & Hi). split; [|split]; try assumption.
  apply int_range_abs; assumption.
Qed.

(** ** The loop variables of [invMul] are [int] values *)


Lemma invMul_init_int (T : int_kind) (valB valA : Z) (s0 : inv_state) :
  invMul_init T valB valA = Ok s0 -> int_state s0.
Proof.
  unfold invMul_init; intros H.
  destruct (abs T valA) as [a0| |]; try discriminate.
  destruct (abs T valB) as [b0| |]; try discriminate.
  cbn [bind] in H. injection H as <-.
  pose proof well_formed_c_int as Hw.
  split; [|split; [|split]]; cbn [st_a st_b st_y st_y1];
    try (apply (convert_range c_int _ Hw));
    unfold in_range, min_val, max_val; simpl; lia.
Qed.

Lemma invMul_step_int_state (s s' : inv_state) :
  int_state s -> invMul_step s = Ok s' -> int_state s'.
Proof.
  intros (Ha & Hb & Hy & Hy1) H. unfold invMul_step in H.
  pose proof well_formed_c_int as Hw.
  destruct (quot c_int (st_a s) (st_b s)) as [q| |] eqn:Hq; try discriminate.
  cbn [bind] in H.
  destruct (rem c_int (st_a s) (st_b s)) as [t| |] eqn:Ht; try discriminate.
  cbn [bind] in H.
  destruct (mul c_int (st_y1 s) q) as [p| |] eqn:Hp; try discriminate.
  cbn [bind] in H.
  destruct (sub c_int (st_y s) p) as [t'| |] eqn:Ht'; try discriminate.
  cbn [bind] in H. injection H as <-.
  split; [|split; [|split]]; cbn [st_a st_b st_y st_y1]; try assumption.
  - (* the remainder is smaller than the divisor *)
    unfold rem in Ht.
    destruct (Z.eqb_spec (st_b s) 0) as [E | E]; [discriminate|].
    destruct (arith c_int (Z.quot (st_a s) (st_b s))); try discriminate.
    cbn [bind] in Ht. injection Ht as <-.
    pose proof (Z.rem_bound_abs (st_a s) (st_b s) E).
    unfold in_range, min_val, max_val in *; simpl in *. lia.
  - apply (arith_Ok_range c_int _ _ Hw Ht').
Qed.

Lemma invMul_reaches_int_state (s s' : inv_state) :
  invMul_reaches s s' -> int_state s -> int_state s'.
Proof.
  intros H; induction H as [s | s s1 s2 Hb Hstep Hr IH]; intros Hi.
  - assumption.
  - apply IH. apply (invMul_step_int_state s); assumption.
Qed.

(** The state the loop returns is one of those it passes through. *)
Lemma invMul_loop_reaches (fuel : nat) :
  forall s s', invMul_loop fuel s = Ok s' ->
               invMul_reaches s s' /\ st_b s' = 0.
Proof.
  induction fuel as [|fuel IH]; intros s s' H; [discriminate|].
  rewrite invMul_loop_S in H.
  destruct (Z.eqb_spec (st_b s) 0) as [Hb | Hb].
  - injection H as <-. split; [constructor | assumption].
  - destruct (invMul_step s) as [s1| |] eqn:Hs; try discriminate.
    cbn [bind] in H. destruct (IH s1 s' H) as [Hr Hb'].
    split; [|assumption]. apply (reaches_step s s1 s'); assumption.
Qed.

(** The fuel of the model never runs out on [int] values: the loop ends or
    stops on a fault. *)
Lemma arith_fuel (k : int_kind) (z : Z) : arith k z <> OutOfFuel.
Proof.
  unfold arith. destruct (is_signed k); [|discriminate].
  destruct (in_rangeb k z); discriminate.
Qed.

Lemma invMul_step_shape (s : inv_state) :
  invMul_step s <> OutOfFuel /\
  forall s', invMul_step s = Ok s' ->
             st_a s' = st_b s /\ st_b s' = Z.rem (st_a s) (st_b s).
Proof.
  unfold invMul_step, quot, rem, mul, sub.
  destruct (st_b s =? 0); [split; [discriminate | intros; discriminate]|].
  pose proof (arith_fuel c_int (Z.quot (st_a s) (st_b s))) as Hq.
  destruct (arith c_int (Z.quot (st_a s) (st_b s))) as [q| |];
    [| split; [discriminate | intros; discriminate] | contradiction].
  cbn [bind].
  pose proof (arith_fuel c_int (st_y1 s * q)) as Hp.
  destruct (arith c_int (st_y1 s * q)) as [p| |];
    [| split; [discriminate | intros; discriminate] | contradiction].
  cbn [bind].
  pose proof (arith_fuel c_int (st_y s - p)) as Ht.
  destruct (arith c_int (st_y s - p)) as [t| |];
    [| split; [discriminate | intros; discriminate] | contradiction].
  cbn [bind]. split; [discriminate|].
  intros s' E. injection E as <-. split; reflexivity.
Qed.

Lemma invMul_loop_fuel_ordered (fuel : nat) :
  forall s,
    Z.abs (st_b s) <= Z.abs (st_a s) ->
    Z.abs (st_a s) * Z.abs (st_b s) < 2 ^ (Z.of_nat fuel - 1) ->
    invMul_loop fuel s <> OutOfFuel.
Proof.
  induction fuel as [|fuel IH]; intros s Ho Hm.
  - simpl in Hm. pose proof (Z.abs_nonneg (st_a s)).
    pose proof (Z.abs_nonneg (st_b s)). nia.
  - rewrite invMul_loop_S.
    destruct (Z.eqb_spec (st_b s) 0) as [Hb | Hb]; [discriminate|].
    destruct (invMul_step_shape s) as [Hf Hshape].
    destruct (invMul_step s) as [s'| |];
      [| discriminate | contradiction].
    cbn [bind]. destruct (Hshape s' eq_refl) as [Ea Eb].
    pose proof (Z.rem_abs (st_a s) (st_b s) Hb) as Hr.
    rewrite Z.rem_mod_nonneg in Hr by lia.
    pose proof (Z.mod_pos_bound (Z.abs (st_a s)) (Z.abs (st_b s))
                  ltac:(lia)) as Hbound.
    pose proof (Z.div_mod (Z.abs (st_a s)) (Z.abs (st_b s)) ltac:(lia))
      as Hdm.
    assert (Hq : 1 <= Z.abs (st_a s) / Z.abs (st_b s))
      by (apply Z.div_le_lower_bound; lia).
    set (A := Z.abs (st_a s)) in *. set (B := Z.abs (st_b s)) in *.
    set (q := A / B) in *. set (r := A mod B) in *.
    assert (B <= B * q) by nia.
    assert (0 < (A - 2 * r) * B) by (apply Z.mul_pos_pos; lia).
    apply IH; rewrite Ea, Eb, <- Hr; fold B; [lia|].
    apply (halve_measure fuel (A * B)); [nia | lia | assumption].
Qed.

Lemma invMul_loop_fuel_enough (s : inv_state) :
  int_state s -> invMul_loop invMul_fuel s <> OutOfFuel.
Proof.
  intros (Ha & Hb & _ & _).
  assert (HA : Z.abs (st_a s) <= 2147483648)
    by (unfold in_range, min_val, max_val in Ha; simpl in Ha; lia).
  assert (HB : Z.abs (st_b s) <= 2147483648)
    by (unfold in_range, min_val, max_val in Hb; simpl in Hb; lia).
  assert (Hprod : forall x y, 0 <= x <= 2147483648 -> 0 <= y <= 2147483648 ->
                     x * y < 2 ^ 64) by (intros; nia).
  destruct (Z.le_gt_cases (Z.abs (st_b s)) (Z.abs (st_a s))) as [Ho | Ho].
  - apply invMul_loop_fuel_ordered; [assumption|].
    change (2 ^ (Z.of_nat invMul_fuel - 1)) with (2 * 2 ^ 64).
    pose proof (Hprod (Z.abs (st_a s)) (Z.abs (st_b s))). lia.
  - unfold invMul_fuel. rewrite invMul_loop_S.
    destruct (Z.eqb_spec (st_b s) 0) as [E | E]; [discriminate|].
    destruct (invMul_step_shape s) as [Hf Hshape].
    destruct (invMul_step s) as [s'| |];
      [| discriminate | contradiction].
    cbn [bind]. destruct (Hshape s' eq_refl) as [Ea Eb].
    pose proof (Z.rem_bound_abs (st_a s) (st_b s) E).
    apply invMul_loop_fuel_ordered; rewrite Ea, Eb; [lia|].
    change (2 ^ (Z.of_nat 65 - 1)) with (2 ^ 64).
    apply Hprod; lia.
Qed.

Lemma invMul_loop_det (A B : Z) (s s' : inv_state) :
  invMul_loop invMul_fuel (InvState A B 0 1) = Ok s ->
  invMul_loop invMul_fuel (InvState A B 0 1) = Ok s' -> s = s'.
Proof. intros H H'. rewrite H in H'. injection H' as ->. reflexivity. Qed.

(** With a modulus of absolute value 0 or 1 the coefficient the loop ends
    with is 0 or 1. *)
Lemma invMul_loop_small (A B : Z) (s : inv_state) :
  0 <= A <= 1 -> 0 <= B <= max_val c_int ->
  invMul_loop invMul_fuel (InvState A B 0 1) = Ok s ->
  0 <= st_y s <= 1.
Proof.
  intros HA HB Hs.
  assert (Hmax : max_val c_int = 2147483647) by reflexivity.
  destruct (invMul_loop_init A B) as (s' & Hs' & _ & Hyb & Hsm & _);
    try lia.
  rewrite (invMul_loop_det A B s s' Hs Hs'). lia.
Qed.

Lemma rem_one (p a : Z) :
  2 <= Z.abs a -> 0 <= p -> (Z.abs a | p - 1) -> Z.rem p a = 1.
Proof.
  intros Ha Hp [k Hk].
  rewrite <- Z.rem_abs_r by lia.
  rewrite Z.rem_mod_nonneg by lia.
  replace p with (1 + k * Z.abs a) by lia.
  rewrite Z.mod_add by lia. apply Z.mod_small; lia.
Qed.

(** ** Division by a positive divisor *)

Lemma quot_rem_pos (x m : Z) :
  0 < m ->
  (0 <= x -> 0 <= Z.quot x m <= x /\ 0 <= Z.rem x m < m /\ Z.rem x m <= x) /\
  (x <= 0 -> x <= Z.quot x m <= 0 /\ - m < Z.rem x m <= 0 /\ x <= Z.rem x m).
Proof.
  intros Hm. pose proof (Z.quot_rem' x m) as E. split; intros Hx.
  - pose proof (Z.rem_bound_pos x m Hx Hm).
    pose proof (Z.quot_pos x m Hx Hm). nia.
  - pose proof (Z.rem_bound_neg_pos x m) as Hr.
    pose proof (Z.rem_bound_pos_neg x m Hm Hx).
    pose proof (Z.quot_opp_l x m ltac:(lia)) as Ho.
    pose proof (Z.quot_pos (- x) m ltac:(lia) Hm). nia.
Qed.

Lemma between_in_range (k : int_kind) (x v : Z) :
  well_formed k -> in_range k x ->
  (0 <= v <= x) \/ (x <= v <= 0) -> in_range k v.
Proof.
  intros Hw Hx Hv.
  pose proof (min_val_nonpos k Hw). pose proof (max_val_ge_127 k Hw).
  unfold in_range in *. lia.
Qed.

Lemma rem_pos_Ok (k : int_kind) (x m : Z) :
  well_formed k -> in_range k x -> 0 < m ->
  rem k x m = Ok (Z.rem x m).
Proof.
  intros Hw Hx Hm. apply rem_Ok; [assumption | lia |].
  destruct (quot_rem_pos x m Hm) as [Hp Hn].
  apply (between_in_range k x); [assumption | assumption |].
  destruct (Z.le_ge_cases 0 x); [left; apply Hp | right; apply Hn]; lia.
Qed.

Lemma reduce_base_Ok (T : int_kind) (a m : Z) :
  well_formed T -> in_range T a -> 0 < m ->
  reduce_base T a m = Ok (Z.rem a m).
Proof.
  intros Hw Ha Hm. unfold reduce_base.
  rewrite rem_pos_Ok;
    [| apply well_formed_promote; assumption
     | apply promote_range; assumption | assumption].
  cbn [bind]. f_equal. apply convert_in_range; [assumption|].
  destruct (quot_rem_pos a m Hm) as [Hp Hn].
  apply (between_in_range T a); [assumption | assumption |].
  destruct (Z.le_ge_cases 0 a) as [H | H];
    [left; specialize (Hp H) | right; specialize (Hn H)]; lia.
Qed.

(** ** The GCD engine *)

Lemma abs_outcome (T : int_kind) (x : Z) :
  (exists v, abs T x = Ok v) \/ abs T x = Fault SignedOverflow.
Proof.
  unfold abs. destruct (kind_eqb T c_unsigned); [left; eauto|].
  destruct (x <? 0); [|left; eauto].
  unfold sub, arith. destruct (is_signed (promote T)).
  - destruct (in_rangeb (promote T) (0 - x)); [left | right]; cbn [bind]; eauto.
  - left; cbn [bind]; eauto.
Qed.

Lemma gcd_comm (T : int_kind) (a b : Z) : gcd T a b = gcd T b a.
Proof.
  unfold gcd.
  destruct (abs_outcome T a) as [[ta ->] | ->];
    destruct (abs_outcome T b) as [[tb ->] | ->]; cbn [bind]; try reflexivity.
  unfold swapCustom; cbn [fst snd].
  destruct (Z.ltb_spec ta tb); destruct (Z.ltb_spec tb ta);
    try reflexivity; try lia.
  replace tb with ta by lia. reflexivity.
Qed.

Lemma gcd_loop_S (T : int_kind) (fuel : nat) (ta tb : Z) :
  gcd_loop T (S fuel) ta tb =
  if tb =? 0 then Ok ta
  else r <- rem (promote T) ta tb ;;
       let '(ta', tb') := swapCustom (convert T r, tb) in
       gcd_loop T fuel ta' tb'.
Proof. reflexivity. Qed.

Lemma gcd_loop_ok (T : int_kind) :
  well_formed T ->
  forall (fuel : nat) (ta tb : Z),
    0 <= tb <= ta -> ta <= max_val T ->
    ta * tb < 2 ^ (Z.of_nat fuel - 1) ->
    gcd_loop T fuel ta tb = Ok (Z.gcd ta tb).
Proof.
  intros Hw fuel; induction fuel as [|fuel IH]; intros ta tb Ho Hmax Hm.
  - simpl in Hm. nia.
  - rewrite gcd_loop_S. destruct (Z.eqb_spec tb 0) as [-> | Hb].
    + rewrite Z.gcd_0_r, Z.abs_eq by lia. reflexivity.
    + assert (Hta : in_range T ta) by (apply nonneg_in_range; auto; lia).
      rewrite rem_pos_Ok;
        [| apply well_formed_promote; assumption
         | apply promote_range; assumption | lia].
      cbn [bind].
      rewrite Z.rem_mod_nonneg by lia.
      pose proof (Z.mod_pos_bound ta tb ltac:(lia)) as Hr.
      pose proof (Z.div_mod ta tb Hb) as Hdm.
      assert (Hq : 1 <= ta / tb) by (apply Z.div_le_lower_bound; lia).
      rewrite convert_in_range;
        [| assumption | apply nonneg_in_range; auto; lia].
      unfold swapCustom; cbn [fst snd].
      rewrite IH; [| lia | lia |].
      * f_equal. rewrite (Z.gcd_comm tb), Z.gcd_mod by assumption.
        apply Z.gcd_comm.
      * set (q := ta / tb) in *. set (r := ta mod tb) in *.
        assert (tb <= tb * q) by nia.
        assert (0 < (ta - 2 * r) * tb) by (apply Z.mul_pos_pos; lia).
        apply (halve_measure fuel (ta * tb)); [nia | lia | assumption].
Qed.

Lemma max_val_lt_pow (T : int_kind) :
  well_formed T -> max_val T < 2 ^ bits T.
Proof.
  unfold well_formed, max_val; intros Hw.
  pose proof (pow2_split (bits T)). pose proof (pow2_pos (bits T - 1)).
  destruct (is_signed T); lia.
Qed.

Lemma gcd_Ok (T : int_kind) (a b : Z) :
  well_formed T -> in_range T a -> in_range T b ->
  Z.abs a <= max_val T -> Z.abs b <= max_val T ->
  gcd T a b = Ok (Z.gcd a b).
Proof.
  intros Hw Ha Hb Hma Hmb. unfold gcd.
  rewrite !abs_Ok by assumption. cbn [bind].
  pose proof (max_val_lt_pow T Hw) as Hlt.
  pose proof (Z.abs_nonneg a). pose proof (Z.abs_nonneg b).
  assert (Hprod : forall x y, 0 <= x <= max_val T -> 0 <= y <= max_val T ->
            x * y < 2 ^ (Z.of_nat (gcd_fuel T) - 1)).
  { intros x y Hx Hy. unfold gcd_fuel, well_formed in *.
    rewrite !Nat2Z.inj_succ, Z2Nat.id by lia.
    replace (Z.succ (Z.succ (2 * bits T)) - 1)
      with (Z.succ (bits T + bits T)) by lia.
    rewrite Z.pow_succ_r, Z.pow_add_r by lia.
    pose proof (pow2_pos (bits T)).
    assert (x * y <= max_val T * max_val T) by nia.
    assert (max_val T * max_val T < 2 ^ bits T * 2 ^ bits T) by nia.
    lia. }
  unfold swapCustom; cbn [fst snd].
  destruct (Z.ltb_spec (Z.abs a) (Z.abs b)).
  - rewrite gcd_loop_ok; [| assumption | lia | lia | apply Hprod; lia].
    rewrite Z.gcd_comm, Z.gcd_abs_l, Z.gcd_abs_r. reflexivity.
  - rewrite gcd_loop_ok; [| assumption | lia | lia | apply Hprod; lia].
    rewrite Z.gcd_abs_l, Z.gcd_abs_r. reflexivity.
Qed.

Lemma isCoprime_Ok (T : int_kind) (a b : Z) :
  well_formed T -> in_range T a -> in_range T b ->
  Z.abs a <= max_val T -> Z.abs b <= max_val T ->
  isCoprime T a b = Ok (Z.gcd a b =? 1).
Proof.
  intros Hw Ha Hb Hma Hmb. unfold isCoprime.
  rewrite gcd_Ok by assumption. reflexivity.
Qed.

(** ** The exponentiation engine *)

Lemma isEven_odd (e : Z) : isEven e = negb (Z.odd e).
Proof.
  unfold isEven. change 1 with (Z.ones 1).
  rewrite Z.land_ones by lia. change (2 ^ 1) with 2.
  rewrite Zmod_odd. destruct (Z.odd e); reflexivity.
Qed.

Lemma rem_pow (x m k : Z) :
  m <> 0 -> 0 <= k -> Z.rem (Z.rem x m ^ k) m = Z.rem (x ^ k) m.
Proof.
  intros Hm Hk. pattern k. apply natlike_ind; [reflexivity | | assumption].
  intros j Hj IH. rewrite !Z.pow_succ_r by assumption.
  rewrite Z.mul_rem_idemp_l by assumption.
  rewrite <- Z.mul_rem_idemp_r, IH, Z.mul_rem_idemp_r by assumption.
  reflexivity.
Qed.

Lemma modMul_Ok (T : int_kind) (a b m : Z) :
  well_formed T -> 0 < m <= max_val T ->
  in_range T a -> in_range T b ->
  Z.abs (a * b) <= max_val (promote T) ->
  modMul T a b m = Ok (Z.rem (a * b) m) /\
  in_range T (Z.rem (a * b) m) /\ Z.abs (Z.rem (a * b) m) < m.
Proof.
  intros Hw Hm Ha Hb Hab.
  pose proof (well_formed_promote T Hw) as Hwp.
  assert (Hsign : is_signed T = false -> 0 <= a * b).
  { intros Hu. pose proof (unsigned_nonneg T a Hu Ha).
    pose proof (unsigned_nonneg T b Hu Hb). nia. }
  assert (Hp : in_range (promote T) (a * b)).
  { destruct (is_signed (promote T)) eqn:Hs.
    - pose proof (min_val_signed_bound _ Hwp Hs). unfold in_range. lia.
    - apply nonneg_in_range; [assumption|]. split; [|lia].
      apply Hsign.
      destruct (promote_cases T) as [[_ E] | [_ E]]; rewrite E in Hs;
        [discriminate | assumption]. }
  pose proof (Z.rem_bound_abs (a * b) m ltac:(lia)) as Hr.
  rewrite (Z.abs_eq m) in Hr by lia.
  assert (Hrng : in_range T (Z.rem (a * b) m)).
  { destruct (is_signed T) eqn:Hs.
    - pose proof (min_val_signed_bound T Hw Hs). unfold in_range. lia.
    - apply nonneg_in_range; [assumption|].
      pose proof (Z.rem_nonneg (a * b) m ltac:(lia) (Hsign eq_refl)). lia. }
  split; [|split; assumption].
  unfold modMul, mul. rewrite arith_in_range by assumption. cbn [bind].
  rewrite rem_pos_Ok by (assumption || lia). cbn [bind].
  rewrite convert_in_range by assumption. reflexivity.
Qed.

Lemma modPow_loop_S (T : int_kind) (fuel : nat) (exp c f m : Z) :
  modPow_loop T (S fuel) exp c f m =
  if exp =? 0 then Ok f
  else
    f' <- (if negb (isEven exp) then modMul T f c m else Ok f) ;;
    let exp' := convert T (Z.shiftr exp 1) in
    c' <- modMul T c c m ;;
    modPow_loop T fuel exp' c' f' m.
Proof. reflexivity. Qed.

Lemma modPow_loop_ok (T : int_kind) (m : Z) :
  well_formed T -> 0 < m <= max_val T -> products_fit T m ->
  forall (fuel : nat) (e c f : Z),
    0 < e -> e < 2 ^ (Z.of_nat fuel - 1) ->
    in_range T e -> in_range T c -> in_range T f ->
    Z.abs c < m -> Z.abs f <= Z.max 1 (m - 1) ->
    modPow_loop T fuel e c f m = Ok (Z.rem (f * c ^ e) m).
Proof.
  intros Hw Hm Hfit fuel. unfold products_fit in Hfit.
  induction fuel as [|fuel IH]; intros e c f He Hlt Hre Hrc Hrf Hc Hf.
  - simpl in Hlt. lia.
  - rewrite modPow_loop_S. destruct (Z.eqb_spec e 0); [lia|].
    assert (Hcc : Z.abs (c * c) <= max_val (promote T)).
    { rewrite Z.abs_mul. pose proof (Z.abs_nonneg c). nia. }
    assert (Hfc : Z.abs (f * c) <= max_val (promote T)).
    { rewrite Z.abs_mul. pose proof (Z.abs_nonneg c).
      pose proof (Z.abs_nonneg f).
      destruct (Z.eq_dec m 1) as [-> | Hm1]; [nia|].
      assert (Z.abs f <= m - 1) by lia. nia. }
    destruct (modMul_Ok T c c m Hw Hm Hrc Hrc Hcc) as (Ec & Hrc' & Hc').
    destruct (modMul_Ok T f c m Hw Hm Hrf Hrc Hfc) as (Ef & Hrf' & Hf').
    rewrite isEven_odd, negb_involutive, Z.shiftr_div_pow2 by lia.
    change (2 ^ 1) with 2.
    pose proof (Zdiv2_odd_eqn e) as Hdiv. rewrite Z.div2_div in Hdiv.
    assert (He2 : 0 <= e / 2 <= e).
    { destruct (Z.odd e); lia. }
    rewrite (convert_in_range T (e / 2));
      [| assumption | apply (between_in_range T e); auto].
    assert (Hstep : exists f',
      (if Z.odd e then modMul T f c m else Ok f) = Ok f' /\
      in_range T f' /\ Z.abs f' <= Z.max 1 (m - 1) /\
      Z.rem (f' * (c * c) ^ (e / 2)) m = Z.rem (f * c ^ e) m /\
      (Z.odd e = true -> Z.abs f' < m)).
    { assert (Hpow : c ^ e = c ^ (if Z.odd e then 1 else 0) * (c * c) ^ (e / 2)).
      { rewrite Hdiv at 1. rewrite Z.pow_add_r, Z.pow_mul_r by
          (destruct (Z.odd e); lia).
        rewrite Z.pow_2_r. ring. }
      rewrite Hpow. destruct (Z.odd e).
      - exists (Z.rem (f * c) m). split; [assumption|].
        split; [assumption|]. split; [lia|]. split; [|intros _; assumption].
        rewrite Z.mul_rem_idemp_l by lia. f_equal. rewrite Z.pow_1_r. ring.
      - exists f. split; [reflexivity|]. split; [assumption|].
        split; [assumption|]. split; [|discriminate].
        f_equal. rewrite Z.pow_0_r. ring. }
    destruct Hstep as (f' & -> & Hrf'' & Hf'' & Heq & Hodd). cbn [bind].
    rewrite Ec. cbn [bind].
    assert (Hfuel : (1 <= Z.of_nat fuel)).
    { destruct fuel; [simpl in Hlt; lia | lia]. }
    destruct (Z.eq_dec (e / 2) 0) as [E0 | E0].
    + (* the last iteration *)
      rewrite E0 in *. destruct fuel as [|fuel]; [simpl in Hfuel; lia|].
      rewrite modPow_loop_S. cbn [Z.eqb]. f_equal.
      rewrite <- Heq. rewrite Z.pow_0_r, Z.mul_1_r.
      symmetry. apply Z.rem_small_iff; [lia|].
      (* [e] is 1, so [f'] is a remainder already *)
      rewrite (Z.abs_eq m) by lia. apply Hodd.
      destruct (Z.odd e); [reflexivity | lia].
    + rewrite IH; try assumption; try lia.
      * f_equal. rewrite <- Heq.
        rewrite <- Z.mul_rem_idemp_r, rem_pow, Z.mul_rem_idemp_r by lia.
        reflexivity.
      * replace (Z.of_nat (S fuel) - 1) with (Z.succ (Z.of_nat fuel - 1))
          in Hlt by lia.
        rewrite Z.pow_succ_r in Hlt by lia.
        destruct (Z.odd e); lia.
      * apply (between_in_range T e); auto.
Qed.

Lemma modPow_fuel_enough (T : int_kind) (e : Z) :
  well_formed T -> e <= max_val T ->
  e < 2 ^ (Z.of_nat (modPow_fuel T) - 1).
Proof.
  intros Hw He. pose proof (max_val_lt_pow T Hw).
  unfold modPow_fuel, well_formed in *.
  rewrite Nat2Z.inj_succ, Z2Nat.id by lia.
  replace (Z.succ (bits T) - 1) with (bits T) by lia. lia.
Qed.

Lemma rem_in_range (T : int_kind) (a m : Z) :
  well_formed T -> in_range T a -> 0 < m ->
  in_range T (Z.rem a m) /\ Z.abs (Z.rem a m) < m.
Proof.
  intros Hw Ha Hm. destruct (quot_rem_pos a m Hm) as [Hp Hn]. split.
  - apply (between_in_range T a); [assumption | assumption |].
    destruct (Z.le_ge_cases 0 a) as [H | H];
      [left; specialize (Hp H) | right; specialize (Hn H)]; lia.
  - destruct (Z.le_ge_cases 0 a) as [H | H];
      [specialize (Hp H) | specialize (Hn H)]; lia.
Qed.

(** [modPow] for a positive exponent. *)
Lemma modPow_pos (T : int_kind) (a n m : Z) :
  well_formed T -> 0 < m <= max_val T -> products_fit T m ->
  in_range T a -> 0 < n -> in_range T n ->
  modPow T a n m = Ok (Z.rem (a ^ n) m).
Proof.
  intros Hw Hm Hfit Ha Hn Hrn. unfold modPow.
  destruct (Z.eqb_spec n 0); [lia|].
  rewrite reduce_base_Ok by (assumption || lia). cbn [bind].
  destruct (Z.ltb_spec n 0); [lia|]. cbn [bind].
  assert (Hnm : n <= max_val T) by (unfold in_range in Hrn; lia).
  rewrite abs_Ok by (assumption || lia). cbn [bind].
  rewrite Z.abs_eq by lia.
  destruct (rem_in_range T a m Hw Ha ltac:(lia)) as [Hrc Hc].
  pose proof (max_val_ge_127 T Hw).
  rewrite (modPow_loop_ok T m Hw Hm Hfit); try assumption; try lia.
  - rewrite Z.mul_1_l, rem_pow by lia. reflexivity.
  - apply modPow_fuel_enough; assumption.
  - apply nonneg_in_range; [assumption | lia].
Qed.

(** [modPow] for a negative exponent, given the inverse of the reduced
    base. *)
Lemma modPow_neg (T : int_kind) (a n m x : Z) :
  well_formed T -> 0 < m <= max_val T -> products_fit T m ->
  in_range T a -> 0 < n -> in_range T n -> in_range T (- n) ->
  invMul T (Z.rem a m) m = Ok x -> in_range T x -> Z.abs x < m ->
  modPow T a (- n) m = Ok (Z.rem (x ^ n) m).
Proof.
  intros Hw Hm Hfit Ha Hn Hrn Hrn' Hinv Hrx Hx. unfold modPow.
  destruct (Z.eqb_spec (- n) 0); [lia|].
  rewrite reduce_base_Ok by (assumption || lia). cbn [bind].
  destruct (Z.ltb_spec (- n) 0); [|lia]. rewrite Hinv. cbn [bind].
  assert (Hnm : n <= max_val T) by (unfold in_range in Hrn; lia).
  rewrite abs_Ok by (assumption || (rewrite Z.abs_opp; lia)). cbn [bind].
  rewrite Z.abs_opp, Z.abs_eq by lia.
  pose proof (max_val_ge_127 T Hw).
  rewrite (modPow_loop_ok T m Hw Hm Hfit); try assumption; try lia.
  - rewrite Z.mul_1_l. reflexivity.
  - apply modPow_fuel_enough; assumption.
  - apply nonneg_in_range; [assumption | lia].
Qed.

(** ** Number theory behind the round trip *)

Lemma prime_check_sound (p : Z) : prime_check p = true -> Z.prime p.
Proof.
  unfold prime_check; intros H.
  apply andb_prop in H; destruct H as [H1 H2].
  apply Z.ltb_lt in H1. split; [assumption|].
  intros n Hn Hd.
  rewrite forallb_forall in H2.
  assert (Hin : In n (map Z.of_nat (seq 2 (Z.to_nat (p - 2))))).
  { apply in_map_iff. exists (Z.to_nat n). split; [lia|].
    apply in_seq. lia. }
  apply H2 in Hin. apply negb_true_iff, Z.eqb_neq in Hin.
  apply Hin, Z.mod_divide; [lia | assumption].
Qed.

Lemma cong_one_divide (p x : Z) : 2 <= p -> x mod p = 1 -> (p | x - 1).
Proof.
  intros Hp Hx. exists (x / p).
  pose proof (Z.div_mod x p ltac:(lia)). lia.
Qed.

(** Fermat's little theorem along one prime factor. *)
Lemma prime_power_cycle (p m t : Z) :
  Z.prime p -> 0 <= t -> (p | m ^ (1 + (p - 1) * t) - m).
Proof.
  intros Hp Ht. pose proof (Z.prime_ge_2 p Hp) as Hp2.
  assert (0 <= (p - 1) * t) by nia.
  rewrite Z.pow_add_r, Z.pow_1_r, Z.pow_mul_r by lia.
  replace (m * (m ^ (p - 1)) ^ t - m) with (m * ((m ^ (p - 1)) ^ t - 1))
    by ring.
  destruct (Z.eq_dec (m mod p) 0) as [E | E].
  - apply Z.divide_mul_l, Z.mod_divide; [lia | assumption].
  - apply Z.divide_mul_r, cong_one_divide; [assumption|].
    rewrite <- Z.mod_pow_l, (Z.fermat_nz p m Hp E), Z.pow_1_l by assumption.
    apply Z.mod_small; lia.
Qed.

(** The exponents [e * d = 1 + k * Phi] undo each other modulo [P * Q]. *)
Lemma rsa_cycle (P Q m k : Z) :
  Z.prime P -> Z.prime Q -> P <> Q -> 0 <= k -> 0 <= m < P * Q ->
  m ^ (1 + k * ((P - 1) * (Q - 1))) mod (P * Q) = m.
Proof.
  intros HP HQ Hne Hk Hm.
  pose proof (Z.prime_ge_2 P HP). pose proof (Z.prime_ge_2 Q HQ).
  assert (HdP : (P | m ^ (1 + k * ((P - 1) * (Q - 1))) - m)).
  { replace (k * ((P - 1) * (Q - 1))) with ((P - 1) * (k * (Q - 1))) by ring.
    apply prime_power_cycle; [assumption | nia]. }
  assert (HdQ : (Q | m ^ (1 + k * ((P - 1) * (Q - 1))) - m)).
  { replace (k * ((P - 1) * (Q - 1))) with ((Q - 1) * (k * (P - 1))) by ring.
    apply prime_power_cycle; [assumption | nia]. }
  set (X := m ^ (1 + k * ((P - 1) * (Q - 1)))) in *.
  destruct HdP as [c Hc].
  assert (HQc : (Q | c)).
  { apply (Z.gauss Q P c).
    - rewrite Z.mul_comm, <- Hc. assumption.
    - apply Z.coprime_prime_l; [assumption|].
      intros Hd. apply Hne. symmetry.
      apply Z.divide_prime_prime; assumption. }
  destruct HQc as [d Hd].
  replace X with (m + d * (P * Q)) by (subst c; lia).
  rewrite Z.mod_add by nia. apply Z.mod_small; assumption.
Qed.

(** ** Inverting before or after raising *)

Lemma representable_small (T : int_kind) (v : Z) :
  well_formed T -> 0 <= v <= 127 -> representable T v.
Proof.
  intros Hw Hv. pose proof (max_val_ge_127 T Hw).
  assert (max_val c_int = 2147483647) by reflexivity.
  split; [apply nonneg_in_range; auto; lia|].
  rewrite Z.abs_eq by lia. lia.
Qed.

Lemma invMul_one (T : int_kind) (m : Z) :
  well_formed T -> representable T m -> 0 < m -> invMul T 1 m = Ok 1.
Proof.
  intros Hw Hm Hpos.
  assert (H1 : representable T 1) by (apply representable_small; auto; lia).
  destruct (Z.eq_dec m 1) as [-> | Hne].
  - destruct (invMul_total T 1 1 Hw H1 H1) as (s & Hs & _ & Hres & _).
    assert (E : invMul_loop invMul_fuel (InvState (Z.abs 1) (Z.abs 1) 0 1)
                = Ok (InvState 1 0 1 (-1))) by reflexivity.
    rewrite E in Hs. injection Hs as <-. rewrite Hres.
    f_equal. apply convert_in_range; [assumption | apply H1].
  - destruct (invMul_coprime T 1 m Hw Hm H1) as (r & Hr & Hrng & [k Hk]).
    + apply Z.gcd_1_r.
    + lia.
    + rewrite Z.abs_eq in Hrng, Hk by lia.
      change (Z.abs 1) with 1 in Hk. change (1 <? 0) with false in Hr.
      rewrite Hr. f_equal.
      assert (k = 0) by nia. lia.
Qed.

Lemma invMul_zero_one (T : int_kind) :
  well_formed T -> invMul T 0 1 = Ok 0.
Proof.
  intros Hw.
  assert (H0 : representable T 0) by (apply representable_small; auto; lia).
  assert (H1 : representable T 1) by (apply representable_small; auto; lia).
  destruct (invMul_total T 0 1 Hw H1 H0) as (s & Hs & _ & Hres & _).
  assert (E : invMul_loop invMul_fuel (InvState (Z.abs 1) (Z.abs 0) 0 1)
              = Ok (InvState 1 0 0 1)) by reflexivity.
  rewrite E in Hs. injection Hs as <-. rewrite Hres.
  f_equal. apply convert_in_range; [assumption | apply H0].
Qed.

Lemma divide_pow_sub_one (m a n : Z) :
  0 <= n -> (m | a - 1) -> (m | a ^ n - 1).
Proof.
  intros Hn Hd. pattern n. apply natlike_ind; [| | assumption].
  - replace (a ^ 0 - 1) with 0 by (rewrite Z.pow_0_r; ring).
    apply Z.divide_0_r.
  - intros j Hj IH. rewrite Z.pow_succ_r by assumption.
    replace (a * a ^ j - 1) with (a * (a ^ j - 1) + (a - 1)) by ring.
    apply Z.divide_add_r; [apply Z.divide_mul_r|]; assumption.
Qed.

Lemma divide_sub_rem (a m : Z) : (m | a - Z.rem a m).
Proof.
  exists (Z.quot a m). pose proof (Z.quot_rem' a m). lia.
Qed.

(** A signed inverse times its argument is the product of the absolute
    values. *)
Lemma signed_inverse_mul (c r : Z) :
  (if c <? 0 then - r else r) * c = Z.abs c * r.
Proof.
  destruct (Z.ltb_spec c 0);
    [rewrite Z.abs_neq by lia | rewrite Z.abs_eq by lia]; ring.
Qed.

(** Two values of the same sign, both inverse to [p] modulo [m] and smaller
    than [m] in absolute value, are equal. *)
Lemma signed_inverse_unique (m p u v : Z) :
  2 <= m -> Z.gcd m p = 1 ->
  (m | u * p - 1) -> (m | v * p - 1) ->
  Z.abs u < m -> Z.abs v < m -> 0 <= u * v ->
  u = v.
Proof.
  intros Hm Hg Hu Hv Hbu Hbv Hs.
  assert (Hd : (m | p * (u - v))).
  { replace (p * (u - v)) with ((u * p - 1) - (v * p - 1)) by ring.
    apply Z.divide_sub_r; assumption. }
  apply Z.gauss in Hd; [|assumption].
  destruct Hd as [k Hk].
  assert (Z.abs (u - v) < m) by nia.
  assert (k = 0) by nia. lia.
Qed.

Lemma modPow_neg_inverse (T : int_kind) (base n m : Z) :
  well_formed T -> is_signed T = true ->
  2 <= m -> m <= max_val T -> m <= max_val c_int -> products_fit T m ->
  in_range T base -> Z.gcd base m = 1 ->
  0 < n -> n <= max_val T ->
  exists v,
    modPow T base (- n) m = Ok v /\
    (p <- modPow T base n m ;; invMul T p m) = Ok v.
Proof.
  intros Hw Hsg Hm2 HmT Hmi Hfit Hb Hg Hn HnT.
  pose proof (min_val_signed_bound T Hw Hsg) as Hmin.
  assert (Hsmall : forall z, Z.abs z < m -> representable T z).
  { intros z Hz. unfold representable, in_range. lia. }
  assert (Hrm : representable T m).
  { unfold representable, in_range. rewrite Z.abs_eq by lia. lia. }
  assert (Hrn : in_range T n) by (unfold in_range; lia).
  assert (Hrn' : in_range T (- n)) by (unfold in_range; lia).
  (* the reduced base and its inverse *)
  set (c := Z.rem base m).
  destruct (rem_in_range T base m Hw Hb ltac:(lia)) as [Hrc Hc]. fold c in Hrc, Hc.
  assert (Hgc : Z.gcd m c = 1).
  { unfold c. rewrite Z.gcd_comm, Z.gcd_rem by lia.
    rewrite Z.gcd_comm. assumption. }
  destruct (invMul_coprime T c m Hw Hrm (Hsmall c Hc) Hgc)
    as (r & Hinv & Hr & Hdr); [rewrite Z.abs_eq by lia; lia|].
  rewrite (Z.abs_eq m) in Hr, Hdr by lia.
  set (x := if c <? 0 then - r else r) in *.
  assert (Hx : Z.abs x < m) by (unfold x; destruct (c <? 0); lia).
  assert (Hxc : (m | x * c - 1)).
  { unfold x. rewrite signed_inverse_mul. assumption. }
  (* the power and its inverse *)
  set (p := Z.rem (base ^ n) m).
  assert (Hpc : p = Z.rem (c ^ n) m).
  { unfold p, c. rewrite rem_pow by lia. reflexivity. }
  assert (Hp : Z.abs p < m).
  { pose proof (Z.rem_bound_abs (base ^ n) m ltac:(lia)). unfold p. lia. }
  assert (Hgp : Z.gcd m p = 1).
  { unfold p. rewrite Z.gcd_comm, Z.gcd_rem by lia.
    apply Z.coprime_pow_r; [lia|].
    unfold Z.coprime. rewrite Z.gcd_comm. assumption. }
  destruct (invMul_coprime T p m Hw Hrm (Hsmall p Hp) Hgp)
    as (r' & Hinv' & Hr' & Hdr'); [rewrite Z.abs_eq by lia; lia|].
  rewrite (Z.abs_eq m) in Hr', Hdr' by lia.
  set (x' := if p <? 0 then - r' else r') in *.
  assert (Hx'p : (m | x' * p - 1)).
  { unfold x'. rewrite signed_inverse_mul. assumption. }
  (* the two sides *)
  set (u := Z.rem (x ^ n) m).
  assert (Hu : Z.abs u < m).
  { pose proof (Z.rem_bound_abs (x ^ n) m ltac:(lia)). unfold u. lia. }
  exists u. split.
  { apply (modPow_neg T base n m x); auto; try lia.
    apply (Hsmall x Hx). }
  rewrite (modPow_pos T base n m); auto; try lia. cbn [bind].
  fold p. rewrite Hinv'. f_equal. symmetry.
  apply (signed_inverse_unique m p u x'); auto.
  - (* [u * p] is congruent to [(x * c) ^ n] *)
    replace (u * p - 1)
      with (((x * c) ^ n - 1) - (x ^ n - u) * c ^ n - u * (c ^ n - p))
      by (rewrite Z.pow_mul_l; ring).
    apply Z.divide_sub_r; [apply Z.divide_sub_r|].
    + apply divide_pow_sub_one; [lia | assumption].
    + apply Z.divide_mul_l, divide_sub_rem.
    + apply Z.divide_mul_r. rewrite Hpc. apply divide_sub_rem.
  - unfold x'. destruct (p <? 0); lia.
  - (* [u] and [x'] have the sign of [base ^ n] *)
    assert (Hpn : p <> 0).
    { intros E. rewrite E, Z.gcd_0_r in Hgp. lia. }
    assert (Hcn : c <> 0).
    { intros E. rewrite E, Z.gcd_0_r in Hgc. lia. }
    assert (Hrn0 : r <> 0).
    { intros E. rewrite E, Z.mul_0_r in Hdr.
      apply Z.divide_opp_r, Z.divide_1_r_nonneg in Hdr; lia. }
    pose proof (Z.rem_sign_mul base m ltac:(lia)) as Hsb. fold c in Hsb.
    pose proof (Z.rem_sign_mul (base ^ n) m ltac:(lia)) as Hsp. fold p in Hsp.
    pose proof (Z.rem_sign_mul (x ^ n) m ltac:(lia)) as Hsu. fold u in Hsu.
    assert (Hbn : base <> 0).
    { intros E. apply Hcn. unfold c. rewrite E. apply Z.rem_0_l. lia. }
    assert (Hxb : 0 < x * base).
    { unfold x. destruct (Z.ltb_spec c 0).
      - assert (base < 0) by nia.
        replace (- r * base) with (r * - base) by ring.
        apply Z.mul_pos_pos; lia.
      - assert (0 < base) by nia. apply Z.mul_pos_pos; lia. }
    assert (HXY : 0 < x ^ n * base ^ n).
    { rewrite <- Z.pow_mul_l. apply Z.pow_pos_nonneg; lia. }
    assert (Hr'n0 : r' <> 0).
    { intros E. rewrite E, Z.mul_0_r in Hdr'.
      apply Z.divide_opp_r, Z.divide_1_r_nonneg in Hdr'; lia. }
    destruct (Z.lt_trichotomy (base ^ n) 0) as [HY | [HY | HY]].
    + assert (x ^ n < 0) by nia. assert (u <= 0) by nia.
      assert (p < 0) by nia.
      unfold x'. destruct (Z.ltb_spec p 0); [nia | lia].
    + rewrite HY in HXY. lia.
    + assert (0 < x ^ n) by nia. assert (0 <= u) by nia.
      assert (0 < p) by nia.
      unfold x'. destruct (Z.ltb_spec p 0); [lia | nia].
Qed.

(** * The claims *)

(** C1, as stated, fails at [a = 1], [b = 1]: [gcd(|1|,|1|) = 1] and
    [invMul(1, 1)] returns 1, which is not below [|a| = 1], and
    [(1 * 1) % 1] is 0, not 1. *)
Lemma invMul_modulus_one_counterexample :
  Z.gcd (Z.abs 1) (Z.abs 1) = 1 /\
  invMul c_int 1 1 = Ok 1 /\
  ~ inverse_claim c_int 1 1.
Proof.
  split; [reflexivity|]. split; [reflexivity|].
  intros (x & Hx & Hr & Hm).
  assert (E : invMul c_int 1 1 = Ok 1) by reflexivity.
  rewrite E in Hx. injection Hx as <-.
  vm_compute in Hm. discriminate.
Qed.

(** C1 (amended): for every [a], [b] whose absolute values are
    representable in [int] and in the integer type, with [|a| >= 2] and
    [gcd(|a|,|b|) = 1], [invMul(b, a)] returns an [x] with [0 <= x < |a|]
    (or [-|a| < x <= 0] when [b] is negative) and [(b * x) % a = 1]. *)
Theorem invMul_inverse_correct (T : int_kind) (a b : Z) :
  well_formed T -> representable T a -> representable T b ->
  2 <= Z.abs a ->
  Z.gcd (Z.abs a) (Z.abs b) = 1 ->
  inverse_claim T b a.
Proof.
  intros Hw Ha Hb Ha2 Hg. rewrite Z.gcd_abs_l, Z.gcd_abs_r in Hg.
  destruct (invMul_coprime T b a Hw Ha Hb Hg Ha2) as (r & Hr & Hrng & Hdiv).
  exists (if b <? 0 then - r else r).
  split; [assumption|]. split.
  - unfold inverse_range. destruct (b <? 0); lia.
  - apply rem_one; [assumption | |].
    + destruct (Z.ltb_spec b 0); nia.
    + replace (b * (if b <? 0 then - r else r)) with (Z.abs b * r);
        [assumption|].
      destruct (Z.ltb_spec b 0);
        [rewrite Z.abs_neq by lia | rewrite Z.abs_eq by lia]; ring.
Qed.

(** The theorem above at a concrete input. *)
Lemma invMul_inverse_correct_witness :
  well_formed c_unsigned /\ representable c_unsigned 3120 /\
  representable c_unsigned 17 /\ 2 <= Z.abs 3120 /\
  Z.gcd (Z.abs 3120) (Z.abs 17) = 1 /\
  inverse_claim c_unsigned 17 3120.
Proof.
  assert (Hw : well_formed c_unsigned) by by_computation.
  assert (Ha : representable c_unsigned 3120)
    by by_computation.
  assert (Hb : representable c_unsigned 17)
    by by_computation.
  assert (H2 : 2 <= Z.abs 3120) by by_computation.
  assert (Hg : Z.gcd (Z.abs 3120) (Z.abs 17) = 1) by reflexivity.
  repeat (split; [assumption|]).
  apply (invMul_inverse_correct c_unsigned 3120 17 Hw Ha Hb H2 Hg).
Defined.

(** C2: the scenario [P = 61], [Q = 53], [e = 17], [M = 65], at [unsigned]
    (the kind [main] uses) and at [int]. *)
Theorem rsa_concrete_scenario :
  61 * 53 = 3233 /\ (61 - 1) * (53 - 1) = 3120 /\
  invMul c_unsigned 17 3120 = Ok 2753 /\
  modPow c_unsigned 65 17 3233 = Ok 2790 /\
  modPow c_unsigned 2790 2753 3233 = Ok 65 /\
  invMul c_int 17 3120 = Ok 2753 /\
  modPow c_int 65 17 3233 = Ok 2790 /\
  modPow c_int 2790 2753 3233 = Ok 65.
Proof. by_computation. Qed.

(** C3, as stated, fails for exponents outside the positive [int] range,
    although no product overflows.  At [int], [P = 2], [Q = 3], [e = -1],
    [M = 2]: [d] is [-1], the ciphertext is 0 (2 has no inverse modulo 6)
    and decrypts to 0.  At [unsigned], [P = 3], [Q = 5], [e = 4294967295],
    [M = 2]: the [int] local of [invMul] holds [-1], [d] is 0 and the
    ciphertext 8 decrypts to 1. *)
Lemma rsa_exponent_counterexample :
  (Z.prime 2 /\ Z.prime 3 /\ Z.gcd (-1) ((2 - 1) * (3 - 1)) = 1 /\
   invMul c_int (-1) ((2 - 1) * (3 - 1)) = Ok (-1) /\
   modPow c_int 2 (-1) (2 * 3) = Ok 0 /\
   modPow c_int 0 (-1) (2 * 3) = Ok 0) /\
  (Z.prime 3 /\ Z.prime 5 /\ Z.gcd 4294967295 ((3 - 1) * (5 - 1)) = 1 /\
   in_range c_unsigned 4294967295 /\
   invMul c_unsigned 4294967295 ((3 - 1) * (5 - 1)) = Ok 0 /\
   modPow c_unsigned 2 4294967295 (3 * 5) = Ok 8 /\
   modPow c_unsigned 8 0 (3 * 5) = Ok 1).
Proof.
  split.
  - split; [apply Z.prime_2|]. split; [apply Z.prime_3|].
    repeat split; vm_compute; reflexivity.
  - split; [apply Z.prime_3|].
    split; [apply prime_check_sound; reflexivity|].
    repeat split; vm_compute; (reflexivity || discriminate).
Qed.

(** C3 (amended): for every pair of distinct primes [P], [Q] with
    [N = P * Q] and [Phi = (P - 1) * (Q - 1)], for every [e] coprime with
    [Phi] with [0 < e] and [e] and [Phi] representable in [int] and in the
    integer type, with [d = invMul(e, Phi)], and for every [M] with
    [0 <= M < N], [modPow(modPow(M, e, N), d, N) == M], provided the
    products of values below [N] do not overflow. *)
Theorem rsa_round_trip (T : int_kind) (P Q e M : Z) :
  well_formed T ->
  Z.prime P -> Z.prime Q -> P <> Q ->
  P * Q <= max_val T -> products_fit T (P * Q) ->
  (P - 1) * (Q - 1) <= max_val c_int ->
  0 < e -> e <= max_val T -> e <= max_val c_int ->
  Z.gcd e ((P - 1) * (Q - 1)) = 1 ->
  0 <= M < P * Q ->
  exists d C,
    invMul T e ((P - 1) * (Q - 1)) = Ok d /\
    modPow T M e (P * Q) = Ok C /\
    modPow T C d (P * Q) = Ok M.
Proof.
  intros Hw HP HQ Hne HN Hfit HPhi He HeT Hei Hg HM.
  pose proof (Z.prime_ge_2 P HP) as HP2.
  pose proof (Z.prime_ge_2 Q HQ) as HQ2.
  set (N := P * Q) in *. set (Phi := (P - 1) * (Q - 1)) in *.
  assert (HPhi2 : 2 <= Phi) by (unfold Phi; nia).
  assert (HPhiN : Phi < N) by (unfold Phi, N; nia).
  assert (Hnn : forall z, 0 <= z <= max_val T -> in_range T z)
    by (intros; apply nonneg_in_range; assumption).
  assert (HrPhi : representable T Phi).
  { split; [apply Hnn; lia|]. rewrite Z.abs_eq by lia. lia. }
  assert (Hre : representable T e).
  { split; [apply Hnn; lia|]. rewrite Z.abs_eq by lia. lia. }
  destruct (invMul_coprime T e Phi Hw HrPhi Hre)
    as (d & Hd & Hdr & [k Hk]);
    [rewrite Z.gcd_comm; assumption | rewrite Z.abs_eq by lia; lia |].
  rewrite Z.abs_eq in Hdr, Hk by lia. rewrite Z.abs_eq in Hk by lia.
  destruct (Z.ltb_spec e 0) as [? | _]; [lia|].
  assert (Hd1 : 1 <= d).
  { destruct (Z.eq_dec d 0) as [-> | ?]; [|lia].
    assert (Hdiv : (Phi | 1)) by (exists (- k); lia).
    apply Z.divide_1_r_nonneg in Hdiv; lia. }
  assert (Hk0 : 0 <= k) by nia.
  exists d, (Z.rem (M ^ e) N).
  split; [assumption|].
  assert (HM' : in_range T M) by (apply Hnn; lia).
  assert (Hpow : 0 <= M ^ e) by (apply Z.pow_nonneg; lia).
  rewrite (modPow_pos T M e N); auto; try lia; [|apply Hnn; lia].
  split; [reflexivity|].
  pose proof (Z.rem_bound_pos (M ^ e) N Hpow ltac:(lia)) as Hc.
  rewrite (modPow_pos T (Z.rem (M ^ e) N) d N); auto; try lia;
    [| apply Hnn; lia | apply Hnn; lia].
  f_equal. rewrite rem_pow by lia.
  rewrite <- Z.pow_mul_r by lia.
  rewrite Z.rem_mod_nonneg by (try lia; apply Z.pow_nonneg; lia).
  replace (e * d) with (1 + k * ((P - 1) * (Q - 1))) by (fold Phi; lia).
  apply rsa_cycle; assumption.
Qed.

(** The theorem above at a concrete input. *)
Lemma rsa_round_trip_witness :
  well_formed c_unsigned /\
  Z.prime 61 /\ Z.prime 53 /\ 61 <> 53 /\
  61 * 53 <= max_val c_unsigned /\ products_fit c_unsigned (61 * 53) /\
  (61 - 1) * (53 - 1) <= max_val c_int /\
  0 < 17 /\ 17 <= max_val c_unsigned /\ 17 <= max_val c_int /\
  Z.gcd 17 ((61 - 1) * (53 - 1)) = 1 /\
  0 <= 65 < 61 * 53 /\
  exists d C,
    invMul c_unsigned 17 ((61 - 1) * (53 - 1)) = Ok d /\
    modPow c_unsigned 65 17 (61 * 53) = Ok C /\
    modPow c_unsigned C d (61 * 53) = Ok 65.
Proof.
  assert (Hw : well_formed c_unsigned) by by_computation.
  assert (HP : Z.prime 61) by (apply prime_check_sound; reflexivity).
  assert (HQ : Z.prime 53) by (apply prime_check_sound; reflexivity).
  assert (Hne : 61 <> 53) by discriminate.
  assert (HN : 61 * 53 <= max_val c_unsigned) by by_computation.
  assert (Hfit : products_fit c_unsigned (61 * 53))
    by by_computation.
  assert (HPhi : (61 - 1) * (53 - 1) <= max_val c_int)
    by by_computation.
  assert (He : 0 < 17) by reflexivity.
  assert (HeT : 17 <= max_val c_unsigned) by by_computation.
  assert (Hei : 17 <= max_val c_int) by by_computation.
  assert (Hg : Z.gcd 17 ((61 - 1) * (53 - 1)) = 1) by reflexivity.
  assert (HM : 0 <= 65 < 61 * 53) by (split; vm_compute; discriminate || reflexivity).
  repeat (split; [assumption|]).
  apply (rsa_round_trip c_unsigned 61 53 17 65
           Hw HP HQ Hne HN Hfit HPhi He HeT Hei Hg HM).
Defined.

(** C4, as stated, fails at [b = 3], [a = -7]: the loop ends with the
    coefficient [-2], [|a| = 7] is added, and the result [5] is returned
    as it is although the modulus argument is negative.  It is for the
    negative value argument [b = -3] that the result is negated. *)
Lemma invMul_negative_modulus_counterexample :
  invMul_loop invMul_fuel (InvState (Z.abs (-7)) (Z.abs 3) 0 1)
    = Ok (InvState 1 0 (-2) 7) /\
  invMul c_int 3 (-7) = Ok (-2 + 7) /\
  invMul c_int 3 (-7) <> Ok (- (-2 + 7)) /\
  invMul c_int (-3) 7 = Ok (- (-2 + 7)).
Proof.
  split; [reflexivity|]. split; [reflexivity|].
  split; [vm_compute; discriminate | reflexivity].
Qed.

(** C4 (amended): for coprime arguments that fit (the case in which the
    statements after the loop are reached with the remainder 1), a negative
    coefficient at the end of the loop gets [|a|] added, which brings it
    into [[0, |a|)]; the result is negated exactly when the value argument
    [b] is negative; the sign of the modulus argument [a] plays no part. *)
Theorem invMul_sign_normalization (T : int_kind) (a b : Z) :
  well_formed T -> representable T a -> representable T b ->
  Z.gcd a b = 1 ->
  (exists s,
     invMul_loop invMul_fuel (InvState (Z.abs a) (Z.abs b) 0 1) = Ok s /\
     st_a s = 1 /\
     (st_y s < 0 -> 0 <= st_y s + Z.abs a < Z.abs a) /\
     let y' := if st_y s <? 0 then st_y s + Z.abs a else st_y s in
     invMul T b a = Ok (if b <? 0 then - y' else y')) /\
  (is_signed T = true -> invMul T b (- a) = invMul T b a).
Proof.
  intros Hw Ha Hb Hg.
  destruct (invMul_total T b a Hw Ha Hb)
    as (s & Hs & Hsa & Hres & Hrng & Hcop).
  assert (Hmax : max_val c_int = 2147483647) by reflexivity.
  pose proof (max_val_ge_127 T Hw) as H127.
  assert (Hy : (st_y s < 0 -> 0 <= st_y s + Z.abs a < Z.abs a) /\
               0 <= (if st_y s <? 0 then st_y s + Z.abs a else st_y s)
                 <= Z.max 1 (Z.abs a)).
  { destruct (Z.le_gt_cases 2 (Z.abs a)) as [Ha2 | Ha2].
    - destruct (Hcop Hg Ha2) as [Hyb _].
      destruct (Z.ltb_spec (st_y s) 0); lia.
    - destruct Hb as (_ & _ & Hbi).
      pose proof (invMul_loop_small (Z.abs a) (Z.abs b) s
                    ltac:(lia) ltac:(lia) Hs).
      destruct (Z.ltb_spec (st_y s) 0); lia. }
  destruct Hy as [Hneg Hy'].
  assert (HR : invMul_result b (Z.abs a) s =
    if b <? 0 then - (if st_y s <? 0 then st_y s + Z.abs a else st_y s)
    else (if st_y s <? 0 then st_y s + Z.abs a else st_y s)).
  { unfold invMul_result. rewrite Hsa, Hg. reflexivity. }
  split.
  - exists s. split; [assumption|]. split; [congruence|].
    split; [assumption|]. cbv zeta.
    rewrite Hres, HR. f_equal.
    set (y' := if st_y s <? 0 then st_y s + Z.abs a else st_y s) in *.
    apply convert_in_range; [assumption|].
    destruct Ha as (_ & HmA & _). destruct Hb as (HrB & _).
    destruct (is_signed T) eqn:Hsg.
    + pose proof (min_val_signed_bound T Hw Hsg).
      unfold in_range. destruct (b <? 0); lia.
    + pose proof (unsigned_nonneg T b Hsg HrB).
      apply nonneg_in_range; [assumption|].
      destruct (Z.ltb_spec b 0); lia.
  - intros Hsg.
    assert (Ha' : representable T (- a)).
    { destruct Ha as (Hr & Hm & Hi).
      pose proof (min_val_signed_bound T Hw Hsg).
      unfold representable, in_range in *. rewrite Z.abs_opp. lia. }
    destruct (invMul_total T b (- a) Hw Ha' Hb)
      as (s' & Hs' & _ & Hres' & _).
    rewrite Z.abs_opp in Hs', Hres'.
    rewrite (invMul_loop_det _ _ _ _ Hs' Hs) in Hres'.
    rewrite Hres, Hres'. reflexivity.
Qed.

(** The theorem above at a concrete input. *)
Lemma invMul_sign_normalization_witness :
  well_formed c_int /\ representable c_int 7 /\ representable c_int (-3) /\
  Z.gcd 7 (-3) = 1 /\
  ((exists s,
     invMul_loop invMul_fuel (InvState (Z.abs 7) (Z.abs (-3)) 0 1) = Ok s /\
     st_a s = 1 /\
     (st_y s < 0 -> 0 <= st_y s + Z.abs 7 < Z.abs 7) /\
     let y' := if st_y s <? 0 then st_y s + Z.abs 7 else st_y s in
     invMul c_int (-3) 7 = Ok (if -3 <? 0 then - y' else y')) /\
   (is_signed c_int = true -> invMul c_int (-3) (- 7) = invMul c_int (-3) 7)).
Proof.
  assert (Hw : well_formed c_int) by by_computation.
  assert (Ha : representable c_int 7)
    by by_computation.
  assert (Hb : representable c_int (-3))
    by by_computation.
  assert (Hg : Z.gcd 7 (-3) = 1) by reflexivity.
  repeat (split; [assumption|]).
  apply (invMul_sign_normalization c_int 7 (-3) Hw Ha Hb Hg).
Defined.

(** C5, as stated, fails at [unsigned] for [b = 9241], [a = 4294967293]:
    their gcd is 9241, yet the [int] locals start from [-3] and [9241], the
    chain ends in the remainder 1 and [invMul] returns 1. *)
Lemma invMul_unsigned_counterexample :
  in_range c_unsigned 9241 /\ in_range c_unsigned 4294967293 /\
  Z.gcd 4294967293 9241 <> 1 /\
  invMul_init c_unsigned 9241 4294967293 = Ok (InvState (-3) 9241 0 1) /\
  invMul c_unsigned 9241 4294967293 = Ok 1.
Proof.
  by_computation.
Qed.

(** C5 (amended): for every [a], [b] whose absolute values are
    representable in [int] and in the integer type, the Euclidean chain of
    [invMul(b, a)] ends in [gcd(a, b)]; if that last remainder is not 1 the
    function returns 0, and when [|a|] is not 1 it returns 0 only then. *)
Theorem invMul_failure_sentinel (T : int_kind) (a b : Z) :
  well_formed T -> representable T a -> representable T b ->
  (Z.gcd a b <> 1 -> invMul T b a = Ok 0) /\
  exists s,
    invMul_loop invMul_fuel (InvState (Z.abs a) (Z.abs b) 0 1) = Ok s /\
    st_a s = Z.gcd a b /\
    (st_a s <> 1 -> invMul T b a = Ok 0) /\
    (Z.abs a <> 1 -> invMul T b a = Ok 0 -> st_a s <> 1).
Proof.
  intros Hw Ha Hb.
  split; [apply invMul_not_coprime; assumption|].
  destruct (invMul_total T b a Hw Ha Hb)
    as (s & Hs & Hsa & Hres & Hrng & Hcop).
  exists s. split; [assumption|]. split; [assumption|]. split.
  - intros Hne. apply invMul_not_coprime; auto. congruence.
  - intros Ha1 Hz Hone. rewrite Hsa in Hone.
    destruct (Z.le_gt_cases 2 (Z.abs a)) as [Ha2 | Ha2].
    + destruct (invMul_coprime T b a Hw Ha Hb Hone Ha2)
        as (r & Hr & Hrng' & [k Hk]).
      rewrite Hr in Hz. injection Hz as Hz.
      assert (r = 0) by (destruct (b <? 0); lia). subst r.
      assert (Hd : (Z.abs a | 1)) by (exists (- k); lia).
      apply Z.divide_1_r_nonneg in Hd; lia.
    + assert (a = 0) by lia. subst a.
      rewrite Z.gcd_0_l in Hone.
      rewrite Hone in Hs. change (Z.abs 0) with 0 in Hs, Hres.
      assert (E : invMul_loop invMul_fuel (InvState 0 1 0 1)
                  = Ok (InvState 1 0 1 0)) by reflexivity.
      rewrite E in Hs. injection Hs as <-.
      rewrite Hres in Hz. injection Hz as Hz.
      unfold invMul_result in Hz; cbn [st_a st_y] in Hz.
      change (negb (1 =? 1)) with false in Hz.
      change (1 <? 0) with false in Hz. cbv iota in Hz.
      rewrite convert_in_range in Hz; [destruct (b <? 0); lia | assumption |].
      apply (representable_in_range T b); auto.
      * destruct (b <? 0); lia.
      * intros Hu. destruct Hb as (HrB & _).
        pose proof (unsigned_nonneg T b Hu HrB).
        destruct (Z.ltb_spec b 0); lia.
Qed.

(** The theorem above at a concrete input. *)
Lemma invMul_failure_sentinel_witness :
  well_formed c_unsigned /\ representable c_unsigned 4 /\
  representable c_unsigned 2 /\
  ((Z.gcd 4 2 <> 1 -> invMul c_unsigned 2 4 = Ok 0) /\
   exists s,
    invMul_loop invMul_fuel (InvState (Z.abs 4) (Z.abs 2) 0 1) = Ok s /\
    st_a s = Z.gcd 4 2 /\
    (st_a s <> 1 -> invMul c_unsigned 2 4 = Ok 0) /\
    (Z.abs 4 <> 1 -> invMul c_unsigned 2 4 = Ok 0 -> st_a s <> 1)).
Proof.
  assert (Hw : well_formed c_unsigned) by by_computation.
  assert (Ha : representable c_unsigned 4)
    by by_computation.
  assert (Hb : representable c_unsigned 2)
    by by_computation.
  repeat (split; [assumption|]).
  apply (invMul_failure_sentinel c_unsigned 4 2 Hw Ha Hb).
Defined.

(** C6, as stated, fails for the exponent 0: [modPow] returns 1 before it
    divides by anything, also when the modulus is 0. *)
Lemma modPow_zero_exponent_counterexample :
  modPow c_int 5 0 0 = Ok 1 /\ modPow c_unsigned 5 0 0 = Ok 1.
Proof. split; reflexivity. Qed.

(** C6 (amended): for every base and every exponent other than 0, [modPow]
    with modulus 0 stops on a division by zero and returns no result; with
    the exponent 0 it returns 1.  [modMul] with modulus 0 returns no result
    either: it stops on the division by zero unless the product has
    overflowed before. *)
Theorem modPow_zero_modulus (T : int_kind) (base exponent : Z) :
  exponent <> 0 ->
  modPow T base exponent 0 = Fault DivisionByZero /\
  modPow T base 0 0 = Ok 1 /\
  (forall a b : Z,
     modMul T a b 0 = Fault DivisionByZero \/
     modMul T a b 0 = Fault SignedOverflow).
Proof.
  intros Hn. split; [|split].
  - unfold modPow. destruct (Z.eqb_spec exponent 0); [contradiction|].
    reflexivity.
  - reflexivity.
  - intros a b. unfold modMul, mul, arith.
    destruct (is_signed (promote T)); [|left; reflexivity].
    destruct (in_rangeb (promote T) (a * b)); [left | right]; reflexivity.
Qed.

(** The theorem above at a concrete input. *)
Lemma modPow_zero_modulus_witness :
  17 <> 0 /\
  modPow c_unsigned 65 17 0 = Fault DivisionByZero /\
  modPow c_unsigned 65 0 0 = Ok 1 /\
  (forall a b : Z,
     modMul c_unsigned a b 0 = Fault DivisionByZero \/
     modMul c_unsigned a b 0 = Fault SignedOverflow).
Proof.
  assert (H : 17 <> 0) by discriminate.
  split; [assumption|].
  apply (modPow_zero_modulus c_unsigned 65 17 H).
Defined.

(** C7, as stated, fails for a negative base: [-5 % 3] is [-2]. *)
Lemma reduce_base_negative_counterexample :
  in_range c_int (-5) /\ 0 < 3 /\
  reduce_base c_int (-5) 3 = Ok (-2) /\ ~ (0 <= -2 < 3).
Proof.
  repeat split; try (vm_compute; discriminate); try reflexivity.
  intros [H _]. vm_compute in H. apply H; reflexivity.
Qed.

(** C7 (amended): for every modulus [> 0], the reduced base [base % modulus]
    lies in [[0, modulus)] when the base is not negative and in
    [(-modulus, 0]] when it is. *)
Theorem reduce_base_range (T : int_kind) (base modulus : Z) :
  well_formed T -> in_range T base -> 0 < modulus ->
  exists c,
    reduce_base T base modulus = Ok c /\
    (0 <= base -> 0 <= c < modulus) /\
    (base < 0 -> - modulus < c <= 0).
Proof.
  intros Hw Hb Hm. exists (Z.rem base modulus).
  split; [apply reduce_base_Ok; assumption|].
  destruct (quot_rem_pos base modulus Hm) as [Hp Hn].
  split; intros H; [apply Hp | apply Hn]; lia.
Qed.

(** The theorem above at a concrete input. *)
Lemma reduce_base_range_witness :
  well_formed c_int /\ in_range c_int (-5) /\ 0 < 3 /\
  exists c,
    reduce_base c_int (-5) 3 = Ok c /\
    (0 <= -5 -> 0 <= c < 3) /\
    (-5 < 0 -> - 3 < c <= 0).
Proof.
  assert (Hw : well_formed c_int) by by_computation.
  assert (Hb : in_range c_int (-5)) by by_computation.
  assert (Hm : 0 < 3) by reflexivity.
  repeat (split; [assumption|]).
  apply (reduce_base_range c_int (-5) 3 Hw Hb Hm).
Defined.

(** C8, as stated, fails where a product overflows, where the modulus does
    not fit [int], and at unsigned types.  At [int], base 2, [n = 2],
    modulus [2 ^ 31 - 1]: the inverse of 2 is [2 ^ 30], whose square
    overflows, while the right-hand side is 536870912.  At [long long],
    base 3, [n = 2], modulus [2 ^ 32 + 7]: the left-hand side is 25, the
    right-hand side 4.  At [unsigned], base 2, [n = 1], modulus 7: [-n] is
    [2 ^ 32 - 1], the left-hand side is 1, the right-hand side 4. *)
Lemma modPow_negative_exponent_counterexample :
  (Z.gcd 2 2147483647 = 1 /\
   modPow c_int 2 (- 2) 2147483647 = Fault SignedOverflow /\
   (p <- modPow c_int 2 2 2147483647 ;; invMul c_int p 2147483647)
     = Ok 536870912) /\
  (Z.gcd 3 4294967303 = 1 /\
   modPow c_long_long 3 (- 2) 4294967303 = Ok 25 /\
   (p <- modPow c_long_long 3 2 4294967303 ;; invMul c_long_long p 4294967303)
     = Ok 4) /\
  (Z.gcd 2 7 = 1 /\
   modPow c_unsigned 2 (convert c_unsigned (- 1)) 7 = Ok 1 /\
   (p <- modPow c_unsigned 2 1 7 ;; invMul c_unsigned p 7) = Ok 4).
Proof.
  by_computation.
Qed.

(** C8 (amended): at a signed integer type, for every modulus [> 0] that is
    representable in [int] and whose products of reduced values do not
    overflow, every base coprime with the modulus and every [n >= 0]
    representable in the type, [modPow(base, -n, modulus)] returns a value
    and [invMul(modPow(base, n, modulus), modulus)] returns the same
    value. *)
Theorem modPow_negative_exponent (T : int_kind) (base n modulus : Z) :
  well_formed T -> is_signed T = true ->
  0 < modulus -> modulus <= max_val T -> modulus <= max_val c_int ->
  products_fit T modulus ->
  in_range T base -> Z.gcd base modulus = 1 ->
  0 <= n -> n <= max_val T ->
  exists v,
    modPow T base (- n) modulus = Ok v /\
    (p <- modPow T base n modulus ;; invMul T p modulus) = Ok v.
Proof.
  intros Hw Hsg Hm HmT Hmi Hfit Hb Hg Hn HnT.
  pose proof (min_val_signed_bound T Hw Hsg) as Hmin.
  assert (Hrm : representable T modulus).
  { unfold representable, in_range. rewrite Z.abs_eq by lia. lia. }
  destruct (Z.eq_dec n 0) as [-> | Hn0].
  - (* the exponent 0 *)
    exists 1. split; [reflexivity|].
    change (modPow T base 0 modulus) with (@Ok Z 1). cbn [bind].
    apply invMul_one; assumption.
  - destruct (Z.eq_dec modulus 1) as [-> | Hm1].
    + (* the modulus 1: everything is 0 *)
      assert (H0 : in_range T 0) by (unfold in_range; lia).
      exists 0. split.
      * assert (Hi : invMul T (Z.rem base 1) 1 = Ok 0)
          by (rewrite Z.rem_1_r; apply invMul_zero_one; assumption).
        rewrite (modPow_neg T base n 1 0 Hw); auto;
          try (unfold in_range; lia); try (simpl; lia).
        rewrite Z.rem_1_r. reflexivity.
      * rewrite (modPow_pos T base n 1); auto; try (unfold in_range; lia).
        cbn [bind]. rewrite Z.rem_1_r. apply invMul_zero_one; assumption.
    + apply modPow_neg_inverse; auto; lia.
Qed.

(** The theorem above at a concrete input. *)
Lemma modPow_negative_exponent_witness :
  well_formed c_int /\ is_signed c_int = true /\
  0 < 3233 /\ 3233 <= max_val c_int /\ 3233 <= max_val c_int /\
  products_fit c_int 3233 /\
  in_range c_int (-65) /\ Z.gcd (-65) 3233 = 1 /\
  0 <= 17 /\ 17 <= max_val c_int /\
  exists v,
    modPow c_int (-65) (- 17) 3233 = Ok v /\
    (p <- modPow c_int (-65) 17 3233 ;; invMul c_int p 3233) = Ok v.
Proof.
  assert (Hw : well_formed c_int) by by_computation.
  assert (Hsg : is_signed c_int = true) by reflexivity.
  assert (Hm : 0 < 3233) by reflexivity.
  assert (HmT : 3233 <= max_val c_int) by by_computation.
  assert (Hfit : products_fit c_int 3233) by by_computation.
  assert (Hb : in_range c_int (-65)) by by_computation.
  assert (Hg : Z.gcd (-65) 3233 = 1) by reflexivity.
  assert (Hn : 0 <= 17) by by_computation.
  assert (HnT : 17 <= max_val c_int) by by_computation.
  repeat (split; [assumption|]).
  apply (modPow_negative_exponent c_int (-65) 17 3233
           Hw Hsg Hm HmT HmT Hfit Hb Hg Hn HnT).
Defined.

(** C9, as stated, fails at the least value of a signed type: at [short],
    [abs(-32768)] is [-32768] and [gcd(-32768, 0)] returns it, a negative
    number; at [int] the negation inside [abs] overflows and [gcd] has no
    result. *)
Lemma gcd_min_value_counterexample :
  in_range c_short (-32768) /\ in_range c_short 0 /\
  gcd c_short (-32768) 0 = Ok (-32768) /\ ~ (0 <= -32768) /\
  in_range c_int (-2147483648) /\
  gcd c_int (-2147483648) 0 = Fault SignedOverflow.
Proof.
  repeat split; try (vm_compute; discriminate).
  intros H. vm_compute in H. apply H; reflexivity.
Qed.

(** C9 (amended): [gcd(a, b)] and [gcd(b, a)] have the same outcome for all
    [a] and [b]; for all [a] and [b] whose absolute values are representable
    in the integer type (every value but the least one of a signed type),
    [gcd(a, b)] returns the greatest common divisor, which is not negative;
    and [gcd(0, 0)] returns 0. *)
Theorem gcd_symmetric_nonnegative (T : int_kind) (a b : Z) :
  well_formed T -> in_range T a -> in_range T b ->
  gcd T a b = gcd T b a /\
  (Z.abs a <= max_val T -> Z.abs b <= max_val T ->
   exists g, gcd T a b = Ok g /\ gcd T b a = Ok g /\ 0 <= g /\
             g = Z.gcd a b) /\
  gcd T 0 0 = Ok 0.
Proof.
  intros Hw Ha Hb. split; [apply gcd_comm|]. split.
  - intros Hma Hmb. exists (Z.gcd a b).
    split; [apply gcd_Ok; assumption|].
    split; [rewrite gcd_comm; apply gcd_Ok; assumption|].
    split; [apply Z.gcd_nonneg | reflexivity].
  - pose proof (max_val_ge_127 T Hw).
    assert (H0 : in_range T 0) by (apply nonneg_in_range; auto; lia).
    rewrite gcd_Ok; auto; simpl; lia.
Qed.

(** The theorem above at a concrete input. *)
Lemma gcd_symmetric_nonnegative_witness :
  well_formed c_int /\ in_range c_int (-12) /\ in_range c_int 18 /\
  (gcd c_int (-12) 18 = gcd c_int 18 (-12) /\
   (Z.abs (-12) <= max_val c_int -> Z.abs 18 <= max_val c_int ->
    exists g, gcd c_int (-12) 18 = Ok g /\ gcd c_int 18 (-12) = Ok g /\
              0 <= g /\ g = Z.gcd (-12) 18) /\
   gcd c_int 0 0 = Ok 0).
Proof.
  assert (Hw : well_formed c_int) by by_computation.
  assert (Ha : in_range c_int (-12)) by by_computation.
  assert (Hb : in_range c_int 18) by by_computation.
  repeat (split; [assumption|]).
  apply (gcd_symmetric_nonnegative c_int (-12) 18 Hw Ha Hb).
Defined.

(** C10, as stated, fails at [short] for [a = -32768], [b = 5]: the absolute
    value 32768 of [a] is representable in [int] but not in [short], where
    [abs] yields [-32768]; the loop then starts from [-32768] and the
    function returns 0, while the computation at [int] returns 19661. *)
Lemma invMul_short_counterexample :
  in_range c_short (-32768) /\ in_range c_short 5 /\
  Z.abs (-32768) <= max_val c_int /\ Z.abs 5 <= max_val c_int /\
  invMul c_int 5 (-32768) = Ok 19661 /\
  convert c_short 19661 = 19661 /\
  invMul c_short 5 (-32768) = Ok 0.
Proof.
  by_computation.
Qed.

(** C10 (amended): for every integer type [T] and all arguments whose
    absolute values are representable in [int] and in [T], [invMul<T>(b, a)]
    returns the result of the computation at [int] converted to [T]; and
    for all arguments whatever, every state the loop passes through holds
    [int] values in [a], [b], [y] and [y1]. *)
Theorem invMul_int_width (T : int_kind) (a b : Z) :
  well_formed T ->
  (representable T a -> representable T b ->
   exists x, invMul c_int b a = Ok x /\ invMul T b a = Ok (convert T x)) /\
  (forall s0 s : inv_state,
     invMul_init T b a = Ok s0 -> invMul_reaches s0 s -> int_state s).
Proof.
  intros Hw. split.
  - intros Ha Hb.
    destruct (invMul_total T b a Hw Ha Hb) as (s & Hs & _ & Hres & Hrng & _).
    destruct (invMul_total c_int b a well_formed_c_int
                (representable_int T a Ha) (representable_int T b Hb))
      as (s' & Hs' & _ & Hres' & _).
    rewrite (invMul_loop_det _ _ _ _ Hs' Hs) in Hres'.
    rewrite (convert_in_range c_int) in Hres'
      by (auto using well_formed_c_int).
    eexists; split; [exact Hres' | exact Hres].
  - intros s0 s Hinit Hreach.
    apply (invMul_reaches_int_state s0 s Hreach).
    apply (invMul_init_int T b a); assumption.
Qed.

(** The theorem above at a concrete input. *)
Lemma invMul_int_width_witness :
  well_formed c_long_long /\
  ((representable c_long_long 3120 -> representable c_long_long 17 ->
    exists x, invMul c_int 17 3120 = Ok x /\
              invMul c_long_long 17 3120 = Ok (convert c_long_long x)) /\
   (forall s0 s : inv_state,
      invMul_init c_long_long 17 3120 = Ok s0 ->
      invMul_reaches s0 s -> int_state s)).
Proof.
  assert (Hw : well_formed c_long_long) by by_computation.
  split; [assumption|].
  apply (invMul_int_width c_long_long 3120 17 Hw).
Defined.

(** An instance of the second part of C10: at [long long] the loop for the
    modulus [2 ^ 32 + 7] starts from its conversion to [int], 7. *)
Example invMul_init_truncates :
  invMul_init c_long_long 3 4294967303 = Ok (InvState 7 3 0 1) /\
  invMul c_long_long 3 4294967303 = Ok 5.
Proof. split; reflexivity. Qed.

(** * Further properties of the code *)

(** ** The integer utilities *)

(** X1: [abs] on every value of the type: the absolute value where it is
    representable; at the least value of a signed type the negation
    overflows when the type is at least as wide as [int], and wraps back to
    the least value itself when it is narrower. *)
Theorem abs_behaviour (T : int_kind) (x : Z) :
  well_formed T -> in_range T x ->
  (Z.abs x <= max_val T -> abs T x = Ok (Z.abs x)) /\
  (max_val T < Z.abs x -> 32 <= bits T -> abs T x = Fault SignedOverflow) /\
  (max_val T < Z.abs x -> bits T < 32 -> abs T x = Ok x /\ x < 0).
Proof.
  intros Hw Hr. split; [intros; apply abs_Ok; assumption|].
  assert (Hmin : max_val T < Z.abs x ->
                 is_signed T = true /\ x = - max_val T - 1).
  { intros Hbig. destruct (is_signed T) eqn:Hs.
    - pose proof (min_val_signed_bound T Hw Hs).
      unfold in_range in Hr. split; [reflexivity | lia].
    - pose proof (unsigned_nonneg T x Hs Hr). unfold in_range in Hr. lia. }
  assert (Hk : is_signed T = true -> kind_eqb T c_unsigned = false).
  { intros Hs. unfold kind_eqb. rewrite Hs. reflexivity. }
  split; intros Hbig Hbits; destruct (Hmin Hbig) as [Hs Hx];
    unfold abs; rewrite (Hk Hs);
    (destruct (Z.ltb_spec x 0) as [Hneg | Hpos];
     [|pose proof (max_val_ge_127 T Hw); lia]).
  - (* wide: [0 - x] is computed at [T] and does not fit *)
    destruct (promote_cases T) as [[Hb _] | [_ E]]; [lia|]. rewrite E.
    unfold sub, arith. rewrite Hs.
    assert (Hout : in_rangeb T (0 - x) = false).
    { destruct (in_rangeb T (0 - x)) eqn:E'; [|reflexivity].
      apply in_rangeb_spec in E'. unfold in_range in E'. lia. }
    rewrite Hout. reflexivity.
  - (* narrow: [0 - x] is computed at [int], then converted *)
    destruct (promote_cases T) as [[_ E] | [Hb _]]; [|lia]. rewrite E.
    unfold well_formed in Hw. unfold max_val in Hx; rewrite Hs in Hx.
    pose proof (pow2_mono (bits T - 1) 30 ltac:(lia)) as Hp.
    change (2 ^ 30) with 1073741824 in Hp.
    pose proof (pow2_pos (bits T - 1) ltac:(lia)) as Hpos.
    unfold sub. rewrite arith_in_range;
      [| apply well_formed_c_int
       | unfold in_range, min_val, max_val; simpl; lia].
    cbn [bind]. split; [|assumption]. f_equal.
    unfold convert. rewrite Hs.
    replace (0 - x + 2 ^ (bits T - 1)) with (2 ^ bits T)
      by (rewrite (pow2_split (bits T)) by lia; lia).
    rewrite Z.mod_same by (pose proof (pow2_pos (bits T)); lia). lia.
Qed.

(** The theorem above at a concrete input. *)
Lemma abs_behaviour_witness :
  well_formed c_short /\ in_range c_short (-32768) /\
  ((Z.abs (-32768) <= max_val c_short ->
    abs c_short (-32768) = Ok (Z.abs (-32768))) /\
   (max_val c_short < Z.abs (-32768) -> 32 <= bits c_short ->
    abs c_short (-32768) = Fault SignedOverflow) /\
   (max_val c_short < Z.abs (-32768) -> bits c_short < 32 ->
    abs c_short (-32768) = Ok (-32768) /\ -32768 < 0)).
Proof.
  assert (Hw : well_formed c_short) by by_computation.
  assert (Hr : in_range c_short (-32768)) by by_computation.
  repeat (split; [assumption|]).
  apply (abs_behaviour c_short (-32768) Hw Hr).
Defined.

(** X2: [isEven] tests the parity of its argument, negative ones
    included. *)
Theorem isEven_parity (a : Z) :
  isEven a = Z.even a /\ (isEven a = true <-> exists k, a = 2 * k).
Proof.
  assert (E : isEven a = Z.even a).
  { rewrite isEven_odd, <- Z.negb_even. apply negb_involutive. }
  split; [assumption|]. rewrite E. apply Z.even_spec.
Qed.

(** ** The GCD engine, on every input *)

Lemma abs_range (T : int_kind) (x v : Z) :
  well_formed T -> in_range T x -> abs T x = Ok v -> in_range T v.
Proof.
  intros Hw Hr H. unfold abs in H.
  destruct (kind_eqb T c_unsigned); [injection H as <-; assumption|].
  destruct (x <? 0); [|injection H as <-; assumption].
  destruct (sub (promote T) 0 x); try discriminate.
  cbn [bind] in H. injection H as <-. apply convert_range; assumption.
Qed.

(** A division at kind [k] by a divisor that is not 0 ends in a value or
    in an overflow. *)
Lemma rem_outcome (k : int_kind) (x y : Z) :
  y <> 0 ->
  rem k x y = Ok (Z.rem x y) \/ rem k x y = Fault SignedOverflow.
Proof.
  intros Hy. unfold rem, arith.
  destruct (Z.eqb_spec y 0); [contradiction|].
  destruct (is_signed k); [|left; reflexivity].
  destruct (in_rangeb k (Z.quot x y)); [left | right]; reflexivity.
Qed.

Lemma rem_between (x y : Z) :
  y <> 0 -> (0 <= Z.rem x y <= x) \/ (x <= Z.rem x y <= 0).
Proof.
  intros Hy.
  pose proof (Z.rem_bound_abs x y Hy).
  pose proof (Z.rem_sign_mul x y Hy).
  pose proof (Z.quot_rem' x y) as E.
  destruct (Z.le_ge_cases 0 x) as [Hx | Hx].
  - left. pose proof (Z.rem_nonneg x y Hy Hx).
    pose proof (Z.quot_pos x (Z.abs y) Hx ltac:(lia)) as Hq.
    rewrite <- (Z.rem_abs_r x y Hy).
    pose proof (Z.quot_rem' x (Z.abs y)).
    pose proof (Z.rem_nonneg x (Z.abs y) ltac:(lia) Hx). nia.
  - right. pose proof (Z.rem_opp_l x y Hy) as Ho.
    pose proof (Z.rem_nonneg (- x) (Z.abs y) ltac:(lia) ltac:(lia)).
    pose proof (Z.quot_pos (- x) (Z.abs y) ltac:(lia) ltac:(lia)).
    pose proof (Z.quot_rem' (- x) (Z.abs y)).
    rewrite (Z.rem_abs_r (- x) y Hy) in *. nia.
Qed.

Lemma gcd_loop_safe (T : int_kind) (fuel : nat) :
  forall ta tb, gcd_loop T fuel ta tb <> Fault DivisionByZero.
Proof.
  induction fuel as [|fuel IH]; intros ta tb; [discriminate|].
  rewrite gcd_loop_S. destruct (Z.eqb_spec tb 0) as [E | E]; [discriminate|].
  destruct (rem_outcome (promote T) ta tb E) as [-> | ->];
    [|discriminate].
  cbn [bind]. unfold swapCustom; cbn [fst snd]. apply IH.
Qed.

Lemma gcd_loop_fuel_ordered (T : int_kind) (fuel : nat) :
  well_formed T ->
  forall ta tb,
    in_range T ta -> in_range T tb ->
    Z.abs tb <= Z.abs ta ->
    Z.abs ta * Z.abs tb < 2 ^ (Z.of_nat fuel - 1) ->
    gcd_loop T fuel ta tb <> OutOfFuel.
Proof.
  intros Hw. induction fuel as [|fuel IH]; intros ta tb Hra Hrb Ho Hm.
  - simpl in Hm. pose proof (Z.abs_nonneg ta). pose proof (Z.abs_nonneg tb).
    nia.
  - rewrite gcd_loop_S. destruct (Z.eqb_spec tb 0) as [E | E]; [discriminate|].
    destruct (rem_outcome (promote T) ta tb E) as [-> | ->];
      [|discriminate].
    cbn [bind]. unfold swapCustom; cbn [fst snd].
    assert (Hrr : in_range T (Z.rem ta tb))
      by (apply (between_in_range T ta); auto using rem_between).
    rewrite (convert_in_range T _ Hw Hrr).
    pose proof (Z.rem_abs ta tb E) as Hr.
    rewrite Z.rem_mod_nonneg in Hr by lia.
    pose proof (Z.mod_pos_bound (Z.abs ta) (Z.abs tb) ltac:(lia)) as Hbound.
    pose proof (Z.div_mod (Z.abs ta) (Z.abs tb) ltac:(lia)) as Hdm.
    assert (Hq : 1 <= Z.abs ta / Z.abs tb)
      by (apply Z.div_le_lower_bound; lia).
    set (A := Z.abs ta) in *. set (B := Z.abs tb) in *.
    set (q := A / B) in *. set (r := A mod B) in *.
    assert (B <= B * q) by nia.
    assert (0 < (A - 2 * r) * B) by (apply Z.mul_pos_pos; lia).
    apply IH; try assumption.
    + rewrite <- Hr. fold B. lia.
    + rewrite <- Hr. fold B.
      apply (halve_measure fuel (A * B)); [nia | lia | assumption].
Qed.

Lemma in_range_abs_pow (T : int_kind) (x : Z) :
  well_formed T -> in_range T x -> Z.abs x <= 2 ^ bits T.
Proof.
  unfold well_formed, in_range, min_val, max_val; intros Hw Hr.
  pose proof (pow2_split (bits T)). pose proof (pow2_pos (bits T - 1)).
  destruct (is_signed T); lia.
Qed.

(** X3: [gcd] never divides by zero and its loop always ends, on every pair
    of values of the type; and [gcd(a, 0)] and [gcd(0, a)] are [|a|]. *)
Theorem gcd_safe_and_terminating (T : int_kind) (a b : Z) :
  well_formed T -> in_range T a -> in_range T b ->
  gcd T a b <> Fault DivisionByZero /\
  gcd T a b <> OutOfFuel /\
  (Z.abs a <= max_val T ->
   gcd T a 0 = Ok (Z.abs a) /\ gcd T 0 a = Ok (Z.abs a)).
Proof.
  intros Hw Ha Hb. split; [|split].
  - unfold gcd.
    destruct (abs_outcome T a) as [[ta ->] | ->]; [|discriminate].
    destruct (abs_outcome T b) as [[tb ->] | ->]; [|discriminate].
    cbn [bind]. destruct (if ta <? tb then _ else _) as [x y].
    apply gcd_loop_safe.
  - unfold gcd.
    destruct (abs_outcome T a) as [[ta Ea] | ->]; [|discriminate].
    destruct (abs_outcome T b) as [[tb Eb] | ->];
      [|rewrite Ea; discriminate].
    rewrite Ea, Eb. cbn [bind].
    pose proof (abs_range T a ta Hw Ha Ea) as Hta.
    pose proof (abs_range T b tb Hw Hb Eb) as Htb.
    assert (Hfuel : forall x y, in_range T x -> in_range T y ->
                      gcd_loop T (gcd_fuel T) x y <> OutOfFuel).
    { intros x y Hx Hy.
      pose proof (in_range_abs_pow T x Hw Hx) as Hx'.
      pose proof (in_range_abs_pow T y Hw Hy) as Hy'.
      pose proof (Z.abs_nonneg x). pose proof (Z.abs_nonneg y).
      pose proof (pow2_pos (bits T)) as Hp. unfold well_formed in Hw.
      assert (Hprod : forall u v, 0 <= u <= 2 ^ bits T ->
                0 <= v <= 2 ^ bits T -> u * v <= 2 ^ (bits T + bits T)).
      { intros u v Hu Hv. rewrite Z.pow_add_r by lia. nia. }
      assert (Hf1 : Z.of_nat (gcd_fuel T) - 1 = Z.succ (bits T + bits T)).
      { unfold gcd_fuel. rewrite !Nat2Z.inj_succ, Z2Nat.id by lia. lia. }
      destruct (Z.le_gt_cases (Z.abs y) (Z.abs x)) as [Ho | Ho].
      - apply gcd_loop_fuel_ordered; try assumption.
        rewrite Hf1, Z.pow_succ_r by lia.
        pose proof (Hprod (Z.abs x) (Z.abs y)).
        pose proof (pow2_pos (bits T + bits T)). lia.
      - unfold gcd_fuel. rewrite gcd_loop_S.
        destruct (Z.eqb_spec y 0) as [E | E]; [discriminate|].
        destruct (rem_outcome (promote T) x y E) as [-> | ->];
          [|discriminate].
        cbn [bind]. unfold swapCustom; cbn [fst snd].
        assert (Hrr : in_range T (Z.rem x y))
          by (apply (between_in_range T x); auto using rem_between).
        rewrite (convert_in_range T _ Hw Hrr).
        pose proof (Z.rem_bound_abs x y E).
        apply gcd_loop_fuel_ordered; try assumption; [lia|].
        replace (Z.of_nat (S (Z.to_nat (2 * bits T))) - 1)
          with (bits T + bits T) by (rewrite Nat2Z.inj_succ, Z2Nat.id; lia).
        pose proof (Hprod (Z.abs y) (Z.abs (Z.rem x y))).
        assert (Z.abs y * Z.abs (Z.rem x y) < Z.abs y * Z.abs y) by nia.
        assert (Z.abs y * Z.abs y <= 2 ^ (bits T + bits T))
          by (apply Hprod; lia).
        lia. }
    unfold swapCustom; cbn [fst snd].
    destruct (ta <? tb); apply Hfuel; assumption.
  - intros Hm. pose proof (max_val_ge_127 T Hw).
    assert (H0 : in_range T 0) by (apply nonneg_in_range; auto; lia).
    assert (Hz : Z.abs 0 <= max_val T) by (simpl; lia).
    split.
    + rewrite (gcd_Ok T a 0 Hw Ha H0 Hm Hz), Z.gcd_0_r. reflexivity.
    + rewrite (gcd_Ok T 0 a Hw H0 Ha Hz Hm), Z.gcd_0_l. reflexivity.
Qed.

(** The theorem above at a concrete input. *)
Lemma gcd_safe_and_terminating_witness :
  well_formed c_short /\ in_range c_short (-32768) /\ in_range c_short 12 /\
  (gcd c_short (-32768) 12 <> Fault DivisionByZero /\
   gcd c_short (-32768) 12 <> OutOfFuel /\
   (Z.abs (-32768) <= max_val c_short ->
    gcd c_short (-32768) 0 = Ok (Z.abs (-32768)) /\
    gcd c_short 0 (-32768) = Ok (Z.abs (-32768)))).
Proof.
  assert (Hw : well_formed c_short) by by_computation.
  assert (Ha : in_range c_short (-32768)) by by_computation.
  assert (Hb : in_range c_short 12) by by_computation.
  repeat (split; [assumption|]).
  apply (gcd_safe_and_terminating c_short (-32768) 12 Hw Ha Hb).
Defined.

(** X4: [isCoprime] decides coprimality, in either order of its
    arguments. *)
Theorem isCoprime_decides (T : int_kind) (a b : Z) :
  well_formed T -> in_range T a -> in_range T b ->
  Z.abs a <= max_val T -> Z.abs b <= max_val T ->
  isCoprime T a b = Ok (Z.gcd a b =? 1) /\
  isCoprime T b a = isCoprime T a b /\
  (isCoprime T a b = Ok true <-> Z.gcd a b = 1).
Proof.
  intros Hw Ha Hb Hma Hmb.
  pose proof (isCoprime_Ok T a b Hw Ha Hb Hma Hmb) as E.
  split; [assumption|]. split.
  - unfold isCoprime. rewrite gcd_comm. reflexivity.
  - rewrite E. split.
    + intros H. injection H as H. apply Z.eqb_eq; assumption.
    + intros H. f_equal. apply Z.eqb_eq; assumption.
Qed.

(** The theorem above at a concrete input. *)
Lemma isCoprime_decides_witness :
  well_formed c_unsigned /\ in_range c_unsigned 17 /\
  in_range c_unsigned 3120 /\
  Z.abs 17 <= max_val c_unsigned /\ Z.abs 3120 <= max_val c_unsigned /\
  (isCoprime c_unsigned 17 3120 = Ok (Z.gcd 17 3120 =? 1) /\
   isCoprime c_unsigned 3120 17 = isCoprime c_unsigned 17 3120 /\
   (isCoprime c_unsigned 17 3120 = Ok true <-> Z.gcd 17 3120 = 1)).
Proof.
  assert (Hw : well_formed c_unsigned) by by_computation.
  assert (Ha : in_range c_unsigned 17) by by_computation.
  assert (Hb : in_range c_unsigned 3120) by by_computation.
  assert (Hma : Z.abs 17 <= max_val c_unsigned) by by_computation.
  assert (Hmb : Z.abs 3120 <= max_val c_unsigned) by by_computation.
  repeat (split; [assumption|]).
  apply (isCoprime_decides c_unsigned 17 3120 Hw Ha Hb Hma Hmb).
Defined.

(** ** The inverse engine, on every input *)

Lemma arith_outcome (k : int_kind) (z : Z) :
  (exists v, arith k z = Ok v) \/ arith k z = Fault SignedOverflow.
Proof.
  unfold arith. destruct (is_signed k); [|left; eauto].
  destruct (in_rangeb k z); [left; eauto | right; reflexivity].
Qed.

Lemma invMul_step_safe (s : inv_state) :
  st_b s <> 0 -> invMul_step s <> Fault DivisionByZero.
Proof.
  intros Hb. unfold invMul_step, quot, rem, mul, sub.
  destruct (Z.eqb_spec (st_b s) 0); [contradiction|].
  destruct (arith_outcome c_int (Z.quot (st_a s) (st_b s))) as [[q ->] | ->];
    [|discriminate].
  cbn [bind].
  destruct (arith_outcome c_int (st_y1 s * q)) as [[p ->] | ->];
    [|discriminate].
  cbn [bind].
  destruct (arith_outcome c_int (st_y s - p)) as [[t ->] | ->];
    discriminate.
Qed.

Lemma invMul_loop_safe (fuel : nat) :
  forall s, invMul_loop fuel s <> Fault DivisionByZero.
Proof.
  induction fuel as [|fuel IH]; intros s; [discriminate|].
  rewrite invMul_loop_S.
  destruct (Z.eqb_spec (st_b s) 0) as [E | E]; [discriminate|].
  pose proof (invMul_step_safe s E) as Hs.
  destruct (invMul_step s) as [s'| f |]; cbn [bind];
    [apply IH | congruence | discriminate].
Qed.

Lemma invMul_finish_outcome (T : int_kind) (valB valA : Z) (s : inv_state) :
  (exists v, invMul_finish T valB valA s = Ok v) \/
  invMul_finish T valB valA s = Fault SignedOverflow.
Proof.
  unfold invMul_finish. destruct (negb (st_a s =? 1)); [left; eauto|].
  assert (Hy : (exists y,
    (if st_y s <? 0
     then v <- abs T valA ;;
          w <- add (promote T) (convert (promote T) (st_y s)) v ;;
          Ok (convert c_int w)
     else Ok (st_y s)) = Ok y) \/
    (if st_y s <? 0
     then v <- abs T valA ;;
          w <- add (promote T) (convert (promote T) (st_y s)) v ;;
          Ok (convert c_int w)
     else Ok (st_y s)) = Fault SignedOverflow).
  { destruct (st_y s <? 0); [|left; eauto].
    destruct (abs_outcome T valA) as [[v ->] | ->]; [|right; reflexivity].
    cbn [bind]. unfold add.
    destruct (arith_outcome (promote T) (convert (promote T) (st_y s) + v))
      as [[w ->] | ->]; [left; cbn [bind]; eauto | right; reflexivity]. }
  destruct Hy as [[y ->] | ->]; [|right; reflexivity]. cbn [bind].
  destruct (valB <? 0); [|left; cbn [bind]; eauto].
  unfold neg. destruct (arith_outcome c_int (- y)) as [[y' ->] | ->];
    [left; cbn [bind]; eauto | right; reflexivity].
Qed.

Lemma invMul_init_outcome (T : int_kind) (valB valA : Z) :
  (exists s0, invMul_init T valB valA = Ok s0) \/
  invMul_init T valB valA = Fault SignedOverflow.
Proof.
  unfold invMul_init.
  destruct (abs_outcome T valA) as [[a0 ->] | ->]; [|right; reflexivity].
  destruct (abs_outcome T valB) as [[b0 ->] | ->]; [|right; reflexivity].
  left. cbn [bind]. eauto.
Qed.

Lemma invMul_no_division_by_zero (T : int_kind) (valB valA : Z) :
  invMul T valB valA <> Fault DivisionByZero.
Proof.
  unfold invMul.
  destruct (invMul_init_outcome T valB valA) as [[s0 ->] | ->];
    [|discriminate].
  cbn [bind]. pose proof (invMul_loop_safe invMul_fuel s0) as Hsafe.
  destruct (invMul_loop invMul_fuel s0) as [s| f |]; cbn [bind];
    [| congruence | discriminate].
  destruct (invMul_finish_outcome T valB valA s) as [[v ->] | ->];
    discriminate.
Qed.

(** X5: [invMul] never divides by zero, whatever its arguments (a modulus
    of 0 included), and its loop always ends. *)
Theorem invMul_safe_and_terminating (T : int_kind) (valB valA : Z) :
  invMul T valB valA <> Fault DivisionByZero /\
  invMul T valB valA <> OutOfFuel.
Proof.
  split; [apply invMul_no_division_by_zero|].
  unfold invMul.
  destruct (invMul_init_outcome T valB valA) as [[s0 Hinit] | ->];
    [|discriminate].
  rewrite Hinit. cbn [bind].
  pose proof (invMul_init_int T valB valA s0 Hinit) as Hint.
  pose proof (invMul_loop_fuel_enough s0 Hint) as Hfuel.
  destruct (invMul_loop invMul_fuel s0) as [s| f |]; cbn [bind];
    [| discriminate | contradiction].
  destruct (invMul_finish_outcome T valB valA s) as [[v ->] | ->];
    discriminate.
Qed.

(** The value [invMul] returns, with no conversion left: it is a value of
    the type. *)
Lemma invMul_exact (T : int_kind) (valB valA : Z) :
  well_formed T -> representable T valA -> representable T valB ->
  exists s,
    invMul_loop invMul_fuel (InvState (Z.abs valA) (Z.abs valB) 0 1) = Ok s /\
    st_a s = Z.gcd valA valB /\
    invMul T valB valA = Ok (invMul_result valB (Z.abs valA) s) /\
    in_range T (invMul_result valB (Z.abs valA) s).
Proof.
  intros Hw Ha Hb.
  destruct (invMul_total T valB valA Hw Ha Hb)
    as (s & Hs & Hsa & Hres & Hrng & Hcop).
  assert (Hmax : max_val c_int = 2147483647) by reflexivity.
  pose proof (max_val_ge_127 T Hw) as H127.
  assert (HR : in_range T (invMul_result valB (Z.abs valA) s)).
  { unfold invMul_result.
    destruct (Z.eqb_spec (st_a s) 1) as [E | E]; cbn [negb];
      [|apply nonneg_in_range; auto; lia].
    assert (Hy : 0 <= (if st_y s <? 0 then st_y s + Z.abs valA else st_y s)
                 <= Z.max 1 (Z.abs valA)).
    { destruct (Z.le_gt_cases 2 (Z.abs valA)) as [Ha2 | Ha2].
      - destruct (Hcop ltac:(congruence) Ha2) as [Hyb _].
        destruct (Z.ltb_spec (st_y s) 0); lia.
      - destruct Hb as (_ & _ & Hbi).
        pose proof (invMul_loop_small (Z.abs valA) (Z.abs valB) s
                      ltac:(lia) ltac:(lia) Hs).
        destruct (Z.ltb_spec (st_y s) 0); lia. }
    set (y' := if st_y s <? 0 then st_y s + Z.abs valA else st_y s) in *.
    cbv zeta. fold y'.
    destruct Ha as (_ & HmA & _). destruct Hb as (HrB & _).
    destruct (is_signed T) eqn:Hsg.
    - pose proof (min_val_signed_bound T Hw Hsg).
      unfold in_range. destruct (valB <? 0); lia.
    - pose proof (unsigned_nonneg T valB Hsg HrB).
      apply nonneg_in_range; [assumption|].
      destruct (Z.ltb_spec valB 0); lia. }
  exists s. repeat (split; [assumption|]). split; [|assumption].
  rewrite Hres, (convert_in_range T _ Hw HR). reflexivity.
Qed.

(** X6: the edge arguments.  With the modulus 0 [invMul] returns [b] when
    [b] is 1 or -1 and 0 otherwise; and 0 has no inverse: [invMul(0, a)]
    is 0 for every [a]. *)
Theorem invMul_zero_arguments (T : int_kind) (x : Z) :
  well_formed T -> representable T x ->
  invMul T x 0 = Ok (if Z.abs x =? 1 then x else 0) /\
  invMul T 0 x = Ok 0.
Proof.
  intros Hw Hx.
  assert (H0 : representable T 0) by (apply representable_small; auto; lia).
  split.
  - destruct (invMul_exact T x 0 Hw H0 Hx) as (s & Hs & Hsa & Hres & _).
    rewrite Z.gcd_0_l in Hsa. change (Z.abs 0) with 0 in Hs, Hres.
    rewrite Hres. unfold invMul_result. rewrite Hsa.
    destruct (Z.eqb_spec (Z.abs x) 1) as [E | E]; cbn [negb];
      [|reflexivity].
    rewrite E in Hs.
    assert (E' : invMul_loop invMul_fuel (InvState 0 1 0 1)
                 = Ok (InvState 1 0 1 0)) by reflexivity.
    rewrite E' in Hs. injection Hs as <-. cbn [st_y].
    change (1 <? 0) with false. cbv iota zeta.
    f_equal. destruct (Z.ltb_spec x 0); lia.
  - destruct (invMul_exact T 0 x Hw Hx H0) as (s & Hs & Hsa & Hres & _).
    rewrite Z.gcd_0_r in Hsa. change (Z.abs 0) with 0 in Hs.
    rewrite Hres. unfold invMul_result. rewrite Hsa.
    destruct (Z.eqb_spec (Z.abs x) 1) as [E | E]; cbn [negb];
      [|reflexivity].
    rewrite E in Hs.
    assert (E' : invMul_loop invMul_fuel (InvState 1 0 0 1)
                 = Ok (InvState 1 0 0 1)) by reflexivity.
    rewrite E' in Hs. injection Hs as <-. reflexivity.
Qed.

(** The theorem above at a concrete input. *)
Lemma invMul_zero_arguments_witness :
  well_formed c_int /\ representable c_int (-1) /\
  invMul c_int (-1) 0 = Ok (if Z.abs (-1) =? 1 then -1 else 0) /\
  invMul c_int 0 (-1) = Ok 0.
Proof.
  assert (Hw : well_formed c_int) by by_computation.
  assert (Hx : representable c_int (-1)) by by_computation.
  repeat (split; [assumption|]).
  apply (invMul_zero_arguments c_int (-1) Hw Hx).
Defined.

(** X7: at a signed type, negating the value argument negates the
    result. *)
Theorem invMul_opposite_value (T : int_kind) (a b : Z) :
  well_formed T -> is_signed T = true ->
  representable T a -> representable T b ->
  exists x, invMul T b a = Ok x /\ invMul T (- b) a = Ok (- x).
Proof.
  intros Hw Hsg Ha Hb.
  assert (Hb' : representable T (- b)).
  { destruct Hb as (Hr & Hm & Hi).
    pose proof (min_val_signed_bound T Hw Hsg).
    unfold representable, in_range in *. rewrite Z.abs_opp. lia. }
  destruct (invMul_exact T b a Hw Ha Hb) as (s & Hs & Hsa & Hres & _).
  destruct (invMul_exact T (- b) a Hw Ha Hb') as (s' & Hs' & _ & Hres' & _).
  rewrite Z.abs_opp in Hs'.
  rewrite (invMul_loop_det _ _ _ _ Hs' Hs) in Hres'.
  exists (invMul_result b (Z.abs a) s). split; [assumption|].
  rewrite Hres'. f_equal. unfold invMul_result.
  destruct (Z.eqb_spec (st_a s) 1) as [E | E]; cbn [negb]; [|reflexivity].
  cbv zeta.
  destruct (Z.ltb_spec (- b) 0); destruct (Z.ltb_spec b 0); try lia.
  (* [b = 0]: the modulus is 1 or -1 and the coefficient is 0 *)
  assert (b = 0) by lia. subst b.
  rewrite E, Z.gcd_0_r in Hsa. rewrite <- Hsa in Hs.
  change (Z.abs 0) with 0 in Hs.
  assert (E' : invMul_loop invMul_fuel (InvState 1 0 0 1)
               = Ok (InvState 1 0 0 1)) by reflexivity.
  rewrite E' in Hs. injection Hs as <-. reflexivity.
Qed.

(** The theorem above at a concrete input. *)
Lemma invMul_opposite_value_witness :
  well_formed c_int /\ is_signed c_int = true /\
  representable c_int 3120 /\ representable c_int 17 /\
  exists x, invMul c_int 17 3120 = Ok x /\ invMul c_int (- 17) 3120 = Ok (- x).
Proof.
  assert (Hw : well_formed c_int) by by_computation.
  assert (Hsg : is_signed c_int = true) by reflexivity.
  assert (Ha : representable c_int 3120) by by_computation.
  assert (Hb : representable c_int 17) by by_computation.
  repeat (split; [assumption|]).
  apply (invMul_opposite_value c_int 3120 17 Hw Hsg Ha Hb).
Defined.

Lemma representable_below (T : int_kind) (a v : Z) :
  well_formed T -> representable T a -> 0 <= v <= Z.abs a ->
  representable T v.
Proof.
  intros Hw (Hr & Hm & Hi) Hv.
  split; [apply nonneg_in_range; auto; lia|].
  rewrite Z.abs_eq by lia. lia.
Qed.

(** An inverse modulo [a] is coprime with [a]. *)
Lemma inverse_coprime (a b r : Z) : (a | b * r - 1) -> Z.gcd a r = 1.
Proof.
  intros Hd.
  assert (Hg : (Z.gcd a r | 1)).
  { replace 1 with (b * r - (b * r - 1)) by ring.
    apply Z.divide_sub_r.
    - apply Z.divide_mul_r, Z.gcd_divide_r.
    - apply (Z.divide_trans _ a); [apply Z.gcd_divide_l | assumption]. }
  apply Z.divide_1_r_nonneg in Hg; [assumption | apply Z.gcd_nonneg].
Qed.

(** X8: the inverse depends on the value only through its residue:
    [invMul(b % a, a)] is [invMul(b, a)] for a modulus [a >= 2] and
    [b >= 0]. *)
Theorem invMul_residue (T : int_kind) (a b : Z) :
  well_formed T -> representable T a -> representable T b ->
  2 <= a -> 0 <= b ->
  invMul T (Z.rem b a) a = invMul T b a.
Proof.
  intros Hw Ha Hb Ha2 Hb0.
  rewrite Z.rem_mod_nonneg by lia.
  pose proof (Z.mod_pos_bound b a ltac:(lia)) as Hm.
  pose proof (Z.div_mod b a ltac:(lia)) as Hdm.
  assert (Hrm : representable T (b mod a))
    by (apply (representable_below T a); auto; lia).
  assert (Hg : Z.gcd a (b mod a) = Z.gcd a b).
  { rewrite (Z.gcd_comm a (b mod a)). apply Z.gcd_mod. lia. }
  destruct (Z.eq_dec (Z.gcd a b) 1) as [Hc | Hc].
  - destruct (invMul_coprime T (b mod a) a Hw Ha Hrm)
      as (r' & Hr' & Hrng' & Hd'); [congruence | lia |].
    destruct (invMul_coprime T b a Hw Ha Hb Hc)
      as (r & Hr & Hrng & Hd); [lia|].
    rewrite (Z.abs_eq a) in * by lia.
    rewrite (Z.abs_eq (b mod a)) in Hd' by lia.
    rewrite (Z.abs_eq b) in Hd by lia.
    destruct (Z.ltb_spec (b mod a) 0); [lia|].
    destruct (Z.ltb_spec b 0); [lia|].
    rewrite Hr', Hr. f_equal.
    assert (Hd1 : (a | r' * b - 1)).
    { replace (r' * b - 1)
        with ((b mod a * r' - 1) + a * (b / a * r')) by (rewrite Hdm at 3; ring).
      apply Z.divide_add_r; [assumption | apply Z.divide_factor_l]. }
    assert (Hd2 : (a | r * b - 1)) by (rewrite Z.mul_comm; assumption).
    assert (Hs : 0 <= r' * r) by nia.
    apply (signed_inverse_unique a b r' r); try assumption; lia.
  - rewrite !invMul_not_coprime; auto. congruence.
Qed.

(** The theorem above at a concrete input. *)
Lemma invMul_residue_witness :
  well_formed c_unsigned /\ representable c_unsigned 3120 /\
  representable c_unsigned 6257 /\ 2 <= 3120 /\ 0 <= 6257 /\
  invMul c_unsigned (Z.rem 6257 3120) 3120 = invMul c_unsigned 6257 3120.
Proof.
  assert (Hw : well_formed c_unsigned) by by_computation.
  assert (Ha : representable c_unsigned 3120) by by_computation.
  assert (Hb : representable c_unsigned 6257) by by_computation.
  assert (H2 : 2 <= 3120) by by_computation.
  assert (H0 : 0 <= 6257) by by_computation.
  repeat (split; [assumption|]).
  apply (invMul_residue c_unsigned 3120 6257 Hw Ha Hb H2 H0).
Defined.



(** ** The exponentiation engine, further *)

(** X10: [modMul] returns the remainder of the exact product as long as
    the product fits the kind it is computed at; the remainder has the sign
    of the product and is below the modulus in absolute value. *)
Theorem modMul_exact (T : int_kind) (a b m : Z) :
  well_formed T -> 0 < m <= max_val T ->
  in_range T a -> in_range T b ->
  Z.abs (a * b) <= max_val (promote T) ->
  modMul T a b m = Ok (Z.rem (a * b) m) /\
  Z.abs (Z.rem (a * b) m) < m /\
  0 <= Z.rem (a * b) m * (a * b) /\
  (0 <= a * b -> Z.rem (a * b) m = (a * b) mod m).
Proof.
  intros Hw Hm Ha Hb Hab.
  destruct (modMul_Ok T a b m Hw Hm Ha Hb Hab) as (E & _ & Hlt).
  split; [assumption|]. split; [assumption|]. split.
  - apply Z.rem_sign_mul. lia.
  - intros Hp. apply Z.rem_mod_nonneg; lia.
Qed.

(** The theorem above at a concrete input. *)
Lemma modMul_exact_witness :
  well_formed c_int /\ 0 < 3233 <= max_val c_int /\
  in_range c_int (-2790) /\ in_range c_int 65 /\
  Z.abs (-2790 * 65) <= max_val (promote c_int) /\
  modMul c_int (-2790) 65 3233 = Ok (Z.rem (-2790 * 65) 3233) /\
  Z.abs (Z.rem (-2790 * 65) 3233) < 3233 /\
  0 <= Z.rem (-2790 * 65) 3233 * (-2790 * 65) /\
  (0 <= -2790 * 65 -> Z.rem (-2790 * 65) 3233 = (-2790 * 65) mod 3233).
Proof.
  assert (Hw : well_formed c_int) by by_computation.
  assert (Hm : 0 < 3233 <= max_val c_int) by by_computation.
  assert (Ha : in_range c_int (-2790)) by by_computation.
  assert (Hb : in_range c_int 65) by by_computation.
  assert (Hab : Z.abs (-2790 * 65) <= max_val (promote c_int))
    by by_computation.
  repeat (split; [assumption|]).
  apply (modMul_exact c_int (-2790) 65 3233 Hw Hm Ha Hb Hab).
Defined.

(** X11: at an unsigned type at least as wide as [int] the product wraps
    before the remainder is taken: [modMul] returns
    [((a * b) mod 2 ^ bits) mod m], with no fault, whatever the size of the
    operands. *)
Theorem modMul_unsigned_wraps (T : int_kind) (a b m : Z) :
  well_formed T -> is_signed T = false -> 32 <= bits T ->
  in_range T m -> m <> 0 ->
  modMul T a b m = Ok (((a * b) mod 2 ^ bits T) mod m).
Proof.
  intros Hw Hu Hbits Hm Hm0.
  pose proof (unsigned_nonneg T m Hu Hm) as Hm1.
  destruct (promote_cases T) as [[Hb _] | [_ E]]; [lia|].
  unfold modMul, mul, rem, arith. rewrite E, Hu. cbn [bind].
  destruct (Z.eqb_spec m 0); [contradiction|]. cbn [bind].
  pose proof (Z.mod_pos_bound (a * b) (2 ^ bits T)
                (pow2_pos (bits T) ltac:(lia))) as Hp.
  rewrite Z.rem_mod_nonneg by lia.
  pose proof (Z.mod_pos_bound ((a * b) mod 2 ^ bits T) m ltac:(lia)) as Hr.
  rewrite convert_in_range; [reflexivity | assumption |].
  apply nonneg_in_range; [assumption|]. unfold in_range in Hm. lia.
Qed.

(** The theorem above at a concrete input: the exact product [2 ^ 32]
    would leave the remainder 4. *)
Lemma modMul_unsigned_wraps_witness :
  well_formed c_unsigned /\ is_signed c_unsigned = false /\
  32 <= bits c_unsigned /\ in_range c_unsigned 7 /\ 7 <> 0 /\
  modMul c_unsigned 65536 65536 7
    = Ok (((65536 * 65536) mod 2 ^ bits c_unsigned) mod 7).
Proof.
  assert (Hw : well_formed c_unsigned) by by_computation.
  assert (Hu : is_signed c_unsigned = false) by reflexivity.
  assert (Hb : 32 <= bits c_unsigned) by by_computation.
  assert (Hm : in_range c_unsigned 7) by by_computation.
  assert (Hm0 : 7 <> 0) by discriminate.
  repeat (split; [assumption|]).
  apply (modMul_unsigned_wraps c_unsigned 65536 65536 7 Hw Hu Hb Hm Hm0).
Defined.

(** X12: square-and-multiply is exponentiation: for a positive exponent
    and a modulus whose products fit, [modPow] returns the truncating
    remainder of [a ^ n]; for a base that is not negative that is
    [a ^ n mod m], in [[0, m)]. *)
Theorem modPow_power (T : int_kind) (a n m : Z) :
  well_formed T -> 0 < m <= max_val T -> products_fit T m ->
  in_range T a -> 0 < n -> in_range T n ->
  modPow T a n m = Ok (Z.rem (a ^ n) m) /\
  Z.abs (Z.rem (a ^ n) m) < m /\
  (0 <= a -> Z.rem (a ^ n) m = a ^ n mod m /\ 0 <= a ^ n mod m < m).
Proof.
  intros Hw Hm Hfit Ha Hn Hrn.
  split; [apply modPow_pos; assumption|]. split.
  - pose proof (Z.rem_bound_abs (a ^ n) m ltac:(lia)). lia.
  - intros Ha0. assert (0 <= a ^ n) by (apply Z.pow_nonneg; assumption).
    split; [apply Z.rem_mod_nonneg; lia | apply Z.mod_pos_bound; lia].
Qed.

(** The theorem above at a concrete input. *)
Lemma modPow_power_witness :
  well_formed c_unsigned /\ 0 < 3233 <= max_val c_unsigned /\
  products_fit c_unsigned 3233 /\ in_range c_unsigned 65 /\
  0 < 17 /\ in_range c_unsigned 17 /\
  modPow c_unsigned 65 17 3233 = Ok (Z.rem (65 ^ 17) 3233) /\
  Z.abs (Z.rem (65 ^ 17) 3233) < 3233 /\
  (0 <= 65 -> Z.rem (65 ^ 17) 3233 = 65 ^ 17 mod 3233 /\
              0 <= 65 ^ 17 mod 3233 < 3233).
Proof.
  assert (Hw : well_formed c_unsigned) by by_computation.
  assert (Hm : 0 < 3233 <= max_val c_unsigned) by by_computation.
  assert (Hfit : products_fit c_unsigned 3233) by by_computation.
  assert (Ha : in_range c_unsigned 65) by by_computation.
  assert (Hn : 0 < 17) by reflexivity.
  assert (Hrn : in_range c_unsigned 17) by by_computation.
  repeat (split; [assumption|]).
  apply (modPow_power c_unsigned 65 17 3233 Hw Hm Hfit Ha Hn Hrn).
Defined.

(** X13: exponents add: [modMul(modPow(a, n1, m), modPow(a, n2, m), m)] is
    [modPow(a, n1 + n2, m)] for positive exponents. *)
Theorem modPow_add_exponents (T : int_kind) (a n1 n2 m : Z) :
  well_formed T -> 0 < m <= max_val T -> products_fit T m ->
  in_range T a -> 0 < n1 -> 0 < n2 -> n1 + n2 <= max_val T ->
  exists p1 p2,
    modPow T a n1 m = Ok p1 /\ modPow T a n2 m = Ok p2 /\
    modMul T p1 p2 m = modPow T a (n1 + n2) m.
Proof.
  intros Hw Hm Hfit Ha Hn1 Hn2 Hsum.
  assert (Hnn : forall z, 0 <= z <= max_val T -> in_range T z)
    by (intros; apply nonneg_in_range; assumption).
  exists (Z.rem (a ^ n1) m), (Z.rem (a ^ n2) m).
  rewrite !modPow_pos; auto; try lia; try (apply Hnn; lia).
  split; [reflexivity|]. split; [reflexivity|].
  pose proof (Z.rem_bound_abs (a ^ n1) m ltac:(lia)) as H1.
  pose proof (Z.rem_bound_abs (a ^ n2) m ltac:(lia)) as H2.
  rewrite (Z.abs_eq m) in H1, H2 by lia.
  assert (Hrange : forall k, 0 < k -> in_range T (Z.rem (a ^ k) m)).
  { intros k Hk. destruct (is_signed T) eqn:Hs.
    - pose proof (min_val_signed_bound T Hw Hs).
      pose proof (Z.rem_bound_abs (a ^ k) m ltac:(lia)).
      unfold in_range. lia.
    - pose proof (unsigned_nonneg T a Hs Ha).
      pose proof (Z.rem_bound_pos (a ^ k) m
                    ltac:(apply Z.pow_nonneg; lia) ltac:(lia)).
      apply Hnn. lia. }
  unfold products_fit in Hfit.
  destruct (modMul_Ok T (Z.rem (a ^ n1) m) (Z.rem (a ^ n2) m) m Hw Hm
              (Hrange n1 Hn1) (Hrange n2 Hn2)) as (E & _).
  { rewrite Z.abs_mul.
    pose proof (Z.abs_nonneg (Z.rem (a ^ n1) m)).
    pose proof (Z.abs_nonneg (Z.rem (a ^ n2) m)). nia. }
  rewrite E. f_equal.
  rewrite Z.mul_rem_idemp_l, Z.mul_rem_idemp_r by lia.
  rewrite Z.pow_add_r by lia. reflexivity.
Qed.

(** The theorem above at a concrete input. *)
Lemma modPow_add_exponents_witness :
  well_formed c_unsigned /\ 0 < 3233 <= max_val c_unsigned /\
  products_fit c_unsigned 3233 /\ in_range c_unsigned 65 /\
  0 < 5 /\ 0 < 12 /\ 5 + 12 <= max_val c_unsigned /\
  exists p1 p2,
    modPow c_unsigned 65 5 3233 = Ok p1 /\
    modPow c_unsigned 65 12 3233 = Ok p2 /\
    modMul c_unsigned p1 p2 3233 = modPow c_unsigned 65 (5 + 12) 3233.
Proof.
  assert (Hw : well_formed c_unsigned) by by_computation.
  assert (Hm : 0 < 3233 <= max_val c_unsigned) by by_computation.
  assert (Hfit : products_fit c_unsigned 3233) by by_computation.
  assert (Ha : in_range c_unsigned 65) by by_computation.
  assert (Hn1 : 0 < 5) by reflexivity.
  assert (Hn2 : 0 < 12) by reflexivity.
  assert (Hs : 5 + 12 <= max_val c_unsigned) by by_computation.
  repeat (split; [assumption|]).
  apply (modPow_add_exponents c_unsigned 65 5 12 3233
           Hw Hm Hfit Ha Hn1 Hn2 Hs).
Defined.

(** X14: a negative exponent yields the inverse of the positive power: at
    a signed type, for a base coprime with the modulus,
    [modMul(modPow(a, -n, m), modPow(a, n, m), m)] is 1. *)
Theorem modPow_negative_is_inverse (T : int_kind) (a n m : Z) :
  well_formed T -> is_signed T = true ->
  2 <= m -> m <= max_val T -> m <= max_val c_int -> products_fit T m ->
  in_range T a -> Z.gcd a m = 1 ->
  0 < n -> n <= max_val T ->
  exists v p,
    modPow T a (- n) m = Ok v /\ modPow T a n m = Ok p /\
    modMul T v p m = Ok 1.
Proof.
  intros Hw Hsg Hm2 HmT Hmi Hfit Ha Hg Hn HnT.
  pose proof (min_val_signed_bound T Hw Hsg) as Hmin.
  assert (Hsmall : forall z, Z.abs z < m -> in_range T z /\ representable T z).
  { intros z Hz. unfold representable, in_range. lia. }
  assert (Hrm : representable T m).
  { unfold representable, in_range. rewrite Z.abs_eq by lia. lia. }
  destruct (modPow_neg_inverse T a n m Hw Hsg Hm2 HmT Hmi Hfit Ha Hg Hn HnT)
    as (v & Hv & Hinv).
  rewrite (modPow_pos T a n m) in Hinv |- *; auto; try lia;
    try (unfold in_range; lia).
  cbn [bind] in Hinv.
  set (p := Z.rem (a ^ n) m) in *.
  assert (Hp : Z.abs p < m).
  { pose proof (Z.rem_bound_abs (a ^ n) m ltac:(lia)). unfold p. lia. }
  assert (Hgp : Z.gcd m p = 1).
  { unfold p. rewrite Z.gcd_comm, Z.gcd_rem by lia.
    apply Z.coprime_pow_r; [lia|].
    unfold Z.coprime. rewrite Z.gcd_comm. assumption. }
  destruct (invMul_coprime T p m Hw Hrm (proj2 (Hsmall p Hp)) Hgp)
    as (r & Hr & Hrng & Hd); [rewrite Z.abs_eq by lia; lia|].
  rewrite (Z.abs_eq m) in Hrng, Hd by lia.
  rewrite Hr in Hinv. injection Hinv as Hvr.
  assert (Hvp : v * p = Z.abs p * r)
    by (rewrite <- Hvr; apply signed_inverse_mul).
  assert (Hvb : Z.abs v < m) by (rewrite <- Hvr; destruct (p <? 0); lia).
  exists v, p. split; [assumption|]. split; [reflexivity|].
  unfold products_fit in Hfit.
  destruct (modMul_Ok T v p m Hw ltac:(lia)
              (proj1 (Hsmall v Hvb)) (proj1 (Hsmall p Hp))) as (E & _).
  { rewrite Z.abs_mul. pose proof (Z.abs_nonneg v).
    pose proof (Z.abs_nonneg p). nia. }
  rewrite E. f_equal. apply rem_one.
  - rewrite Z.abs_eq by lia. assumption.
  - rewrite Hvp. pose proof (Z.abs_nonneg p). nia.
  - rewrite Z.abs_eq by lia. rewrite Hvp. assumption.
Qed.

(** The theorem above at a concrete input. *)
Lemma modPow_negative_is_inverse_witness :
  well_formed c_int /\ is_signed c_int = true /\
  2 <= 3233 /\ 3233 <= max_val c_int /\ 3233 <= max_val c_int /\
  products_fit c_int 3233 /\ in_range c_int (-65) /\
  Z.gcd (-65) 3233 = 1 /\ 0 < 17 /\ 17 <= max_val c_int /\
  exists v p,
    modPow c_int (-65) (- 17) 3233 = Ok v /\
    modPow c_int (-65) 17 3233 = Ok p /\
    modMul c_int v p 3233 = Ok 1.
Proof.
  assert (Hw : well_formed c_int) by by_computation.
  assert (Hsg : is_signed c_int = true) by reflexivity.
  assert (Hm2 : 2 <= 3233) by by_computation.
  assert (HmT : 3233 <= max_val c_int) by by_computation.
  assert (Hfit : products_fit c_int 3233) by by_computation.
  assert (Ha : in_range c_int (-65)) by by_computation.
  assert (Hg : Z.gcd (-65) 3233 = 1) by reflexivity.
  assert (Hn : 0 < 17) by reflexivity.
  assert (HnT : 17 <= max_val c_int) by by_computation.
  repeat (split; [assumption|]).
  apply (modPow_negative_is_inverse c_int (-65) 17 3233
           Hw Hsg Hm2 HmT HmT Hfit Ha Hg Hn HnT).
Defined.



Lemma modMul_safe (T : int_kind) (a b m : Z) :
  m <> 0 -> modMul T a b m <> Fault DivisionByZero.
Proof.
  intros Hm. unfold modMul, mul.
  destruct (arith_outcome (promote T) (a * b)) as [[p ->] | ->];
    [|discriminate].
  cbn [bind].
  destruct (rem_outcome (promote T) p m Hm) as [-> | ->]; discriminate.
Qed.

Lemma modPow_loop_safe (T : int_kind) (m : Z) (fuel : nat) :
  m <> 0 ->
  forall e c f, modPow_loop T fuel e c f m <> Fault DivisionByZero.
Proof.
  intros Hm. induction fuel as [|fuel IH]; intros e c f; [discriminate|].
  rewrite modPow_loop_S. destruct (e =? 0); [discriminate|].
  assert (Hf : forall x,
    (if negb (isEven e) then modMul T f c m else Ok f) = Fault x ->
    x <> DivisionByZero).
  { intros x. destruct (negb (isEven e)); [|discriminate].
    pose proof (modMul_safe T f c m Hm). congruence. }
  destruct (if negb (isEven e) then modMul T f c m else Ok f)
    as [f'| x |]; cbn [bind];
    [| specialize (Hf x eq_refl); congruence | discriminate].
  pose proof (modMul_safe T c c m Hm) as Hc.
  destruct (modMul T c c m) as [c'| x |]; cbn [bind];
    [apply IH | congruence | discriminate].
Qed.

(** X16: [modPow] divides by zero exactly when the modulus is 0 and the
    exponent is not. *)
Theorem modPow_division_by_zero (T : int_kind) (a n m : Z) :
  modPow T a n m = Fault DivisionByZero <-> (m = 0 /\ n <> 0).
Proof.
  split.
  - intros H. destruct (Z.eq_dec m 0) as [-> | Hm].
    + split; [reflexivity|]. intros ->. discriminate.
    + exfalso. revert H. unfold modPow.
      destruct (n =? 0); [discriminate|].
      unfold reduce_base.
      destruct (rem_outcome (promote T) a m Hm) as [-> | ->];
        [|discriminate].
      cbn [bind].
      assert (Hc : forall c, (if n <? 0 then invMul T c m else Ok c)
                             <> Fault DivisionByZero).
      { intros c. destruct (n <? 0); [|discriminate].
        apply invMul_no_division_by_zero. }
      specialize (Hc (convert T (Z.rem a m))).
      destruct (if n <? 0 then invMul T (convert T (Z.rem a m)) m
                else Ok (convert T (Z.rem a m))) as [c'| x |];
        cbn [bind]; [| congruence | discriminate].
      destruct (abs_outcome T n) as [[e ->] | ->]; [|discriminate].
      cbn [bind]. apply modPow_loop_safe; assumption.
  - intros [-> Hn]. unfold modPow.
    destruct (Z.eqb_spec n 0); [contradiction | reflexivity].
Qed.

(** ** The driver *)

Lemma prime_check_complete (p : Z) : Z.prime p -> prime_check p = true.
Proof.
  intros [H1 Hd]. unfold prime_check.
  apply andb_true_intro. split; [apply Z.ltb_lt; assumption|].
  apply forallb_forall. intros d Hin.
  apply in_map_iff in Hin. destruct Hin as (k & <- & Hk).
  apply in_seq in Hk.
  apply negb_true_iff, Z.eqb_neq. intros Hmod.
  apply (Hd (Z.of_nat k)); [lia|].
  apply Z.mod_divide; [lia | assumption].
Qed.

Lemma PRIMES_prime (p : Z) :
  In p PRIMES -> Z.prime p /\ 2 <= p <= 251.
Proof.
  intros Hin.
  assert (Hall : forallb (fun q => prime_check q && (2 <=? q) && (q <=? 251))
                         PRIMES = true) by (vm_compute; reflexivity).
  rewrite forallb_forall in Hall. specialize (Hall p Hin).
  apply andb_prop in Hall. destruct Hall as [Hall H3].
  apply andb_prop in Hall. destruct Hall as [H1 H2].
  split; [apply prime_check_sound; assumption|].
  apply Z.leb_le in H2. apply Z.leb_le in H3. lia.
Qed.

(** X17: the table [PRIMES] holds the primes below 256, all of them and
    nothing else, each once. *)
Theorem PRIMES_table (p : Z) :
  (In p PRIMES <-> Z.prime p /\ p < 256) /\
  NoDup PRIMES /\ length PRIMES = 54%nat.
Proof.
  split; [split|].
  - intros Hin. destruct (PRIMES_prime p Hin) as [Hp Hr].
    split; [assumption | lia].
  - intros [Hp Hlt]. pose proof (Z.prime_ge_2 p Hp) as H2.
    assert (Hall : forallb (fun c => existsb (Z.eqb c) PRIMES
                                     || negb (prime_check c))
                     (map Z.of_nat (seq 2 254)) = true)
      by (vm_compute; reflexivity).
    rewrite forallb_forall in Hall.
    assert (Hin : In p (map Z.of_nat (seq 2 254))).
    { apply in_map_iff. exists (Z.to_nat p). split; [lia|].
      apply in_seq. lia. }
    specialize (Hall p Hin). apply orb_prop in Hall.
    destruct Hall as [Hex | Hnp].
    + apply existsb_exists in Hex. destruct Hex as (q & Hq & Heq).
      apply Z.eqb_eq in Heq. subst q. assumption.
    + rewrite (prime_check_complete p Hp) in Hnp. discriminate.
  - split; [|reflexivity].
    replace PRIMES with (nodup Z.eq_dec PRIMES) by (vm_compute; reflexivity).
    apply NoDup_nodup.
Qed.

Lemma lor_one (x : Z) : Z.lor x 1 = if Z.odd x then x else x + 1.
Proof.
  assert (Heven : forall k, Z.lor (2 * k) 1 = 2 * k + 1).
  { intros k. pose proof (Z.add_lor_land (2 * k) 1) as H.
    replace (Z.land (2 * k) 1) with 0 in H; [lia|].
    change 1 with (Z.ones 1). rewrite Z.land_ones by lia.
    change (2 ^ 1) with 2. rewrite Z.mul_comm. symmetry.
    apply Z.mod_mul. lia. }
  destruct (Z.odd x) eqn:Ho.
  - apply Z.odd_spec in Ho. destruct Ho as [k ->].
    rewrite <- (Heven k) at 1. rewrite <- Z.lor_assoc.
    change (Z.lor 1 1) with 1. apply Heven.
  - rewrite <- Z.negb_even in Ho. apply negb_false_iff in Ho.
    apply Z.even_spec in Ho. destruct Ho as [k ->]. apply Heven.
Qed.

Lemma lor_one_start (Phi x : Z) :
  Z.even Phi = true -> 0 <= x < Phi ->
  Z.odd (Z.lor x 1) = true /\ x <= Z.lor x 1 <= Phi - 1 /\ 1 <= Z.lor x 1.
Proof.
  intros Heven Hx.
  rewrite lor_one. destruct (Z.odd x) eqn:Ho.
  - split; [assumption|]. split; [lia|].
    destruct (Z.eq_dec x 0) as [-> | ?]; [discriminate | lia].
  - split; [rewrite Z.odd_add, Ho; reflexivity|].
    rewrite <- Z.negb_even in Ho. apply negb_false_iff in Ho.
    apply Z.even_spec in Ho. destruct Ho as [k ->].
    apply Z.even_spec in Heven. destruct Heven as [j Hj]. lia.
Qed.

Lemma gcd_pred (n : Z) : Z.gcd (n - 1) n = 1.
Proof.
  rewrite Z.gcd_comm. apply (inverse_coprime n (-1) (n - 1)).
  exists (-1). ring.
Qed.

Lemma select_e_S (fuel : nat) (e Phi : Z) :
  select_e (S fuel) e Phi =
  c <- isCoprime c_unsigned e Phi ;;
  if c then Ok e else e' <- add c_unsigned e 2 ;; select_e fuel e' Phi.
Proof. reflexivity. Qed.

(** The search for the public exponent, from an odd start below an even
    [Phi]. *)
Lemma select_e_ok (Phi : Z) :
  2 <= Phi <= max_val c_unsigned -> Z.even Phi = true ->
  forall (fuel : nat) (e : Z),
    Z.odd e = true -> 1 <= e <= Phi - 1 ->
    Phi - 1 - e < 2 * Z.of_nat fuel ->
    exists e',
      select_e fuel e Phi = Ok e' /\
      e <= e' <= Phi - 1 /\ Z.odd e' = true /\ Z.gcd e' Phi = 1 /\
      (forall k, e <= k < e' -> Z.odd k = true -> Z.gcd k Phi <> 1).
Proof.
  intros HPhi Heven.
  pose proof well_formed_c_int as Hwi.
  assert (Hw : well_formed c_unsigned) by (unfold well_formed; simpl; lia).
  assert (Hnn : forall z, 0 <= z <= max_val c_unsigned ->
                          in_range c_unsigned z)
    by (intros; apply nonneg_in_range; assumption).
  induction fuel as [|fuel IH]; intros e Hodd He Hm; [lia|].
  rewrite select_e_S.
  rewrite isCoprime_Ok; auto; try (apply Hnn; lia);
    try (rewrite Z.abs_eq by lia; lia).
  cbn [bind]. destruct (Z.eqb_spec (Z.gcd e Phi) 1) as [Hg | Hg].
  - exists e. split; [reflexivity|]. split; [lia|].
    split; [assumption|]. split; [assumption|]. intros k Hk. lia.
  - assert (He' : e <= Phi - 3).
    { destruct (Z.eq_dec e (Phi - 1)) as [-> | Hne].
      - exfalso. apply Hg. apply gcd_pred.
      - apply Z.odd_spec in Hodd. destruct Hodd as [k ->].
        apply Z.even_spec in Heven. destruct Heven as [j ->]. lia. }
    unfold add. rewrite arith_in_range; auto; [|apply Hnn; lia].
    cbn [bind].
    destruct (IH (e + 2)) as (e' & Hs & Hr & Ho & Hc & Hmin);
      [rewrite Z.odd_add; rewrite Hodd; reflexivity | lia | lia |].
    exists e'. split; [assumption|]. split; [lia|].
    split; [assumption|]. split; [assumption|].
    intros k Hk Hko.
    destruct (Z.eq_dec k e) as [-> | Hke]; [assumption|].
    apply Hmin; [|assumption].
    destruct (Z.eq_dec k (e + 1)) as [-> | ?]; [|lia].
    rewrite Z.odd_add, Hodd in Hko. discriminate.
Qed.

(** X18: the search for the public exponent ends: from the start
    [(rand() % Phi) | 1], for an even [Phi], the loop stops on the least
    odd number from the start on that is coprime with [Phi], and that
    number is below [Phi]. *)
Theorem select_e_finds (Phi x : Z) :
  2 <= Phi <= max_val c_unsigned -> Z.even Phi = true -> 0 <= x < Phi ->
  exists e,
    select_e (select_e_fuel Phi) (Z.lor x 1) Phi = Ok e /\
    x <= e < Phi /\ Z.odd e = true /\ Z.gcd e Phi = 1 /\
    (forall k, x <= k < e -> Z.odd k = true -> Z.gcd k Phi <> 1).
Proof.
  intros HPhi Heven Hx.
  destruct (lor_one_start Phi x Heven Hx) as (Hodd & Hr & Hpos).
  destruct (select_e_ok Phi HPhi Heven (select_e_fuel Phi) (Z.lor x 1))
    as (e & Hs & Hre & Ho & Hc & Hmin); try assumption; try lia.
  { unfold select_e_fuel. rewrite Nat2Z.inj_succ, Z2Nat.id by lia. lia. }
  exists e. split; [assumption|]. split; [lia|].
  split; [assumption|]. split; [assumption|].
  intros k Hk Hko. apply Hmin; [|assumption].
  split; [|lia].
  destruct (Z.eq_dec k x) as [-> | ?]; [|rewrite lor_one; destruct (Z.odd x); lia].
  rewrite lor_one, Hko. lia.
Qed.

(** The theorem above at a concrete input. *)
Lemma select_e_finds_witness :
  2 <= 3120 <= max_val c_unsigned /\ Z.even 3120 = true /\
  0 <= 1000 < 3120 /\
  exists e,
    select_e (select_e_fuel 3120) (Z.lor 1000 1) 3120 = Ok e /\
    1000 <= e < 3120 /\ Z.odd e = true /\ Z.gcd e 3120 = 1 /\
    (forall k, 1000 <= k < e -> Z.odd k = true -> Z.gcd k 3120 <> 1).
Proof.
  assert (HPhi : 2 <= 3120 <= max_val c_unsigned) by by_computation.
  assert (Heven : Z.even 3120 = true) by reflexivity.
  assert (Hx : 0 <= 1000 < 3120) by by_computation.
  repeat (split; [assumption|]).
  apply (select_e_finds 3120 1000 HPhi Heven Hx).
Defined.

Lemma PRIMES_parity (p : Z) :
  In p PRIMES -> p = 2 \/ (3 <= p /\ Z.odd p = true).
Proof.
  intros Hin.
  assert (H : forallb (fun q => (q =? 2) || ((3 <=? q) && Z.odd q)) PRIMES
              = true) by (vm_compute; reflexivity).
  rewrite forallb_forall in H. specialize (H p Hin).
  apply orb_true_iff in H. destruct H as [H | H].
  - left. apply Z.eqb_eq. exact H.
  - right. apply andb_true_iff in H. destruct H as [H1 H2].
    split; [apply Z.leb_le|]; assumption.
Qed.

Lemma pick_prime_Ok (r : Z) :
  exists p, pick_prime r = Ok p /\ In p PRIMES.
Proof.
  assert (Hw : well_formed c_size_t) by (unfold well_formed; simpl; lia).
  pose proof (convert_range c_size_t r Hw) as Hc.
  assert (H0 : 0 <= convert c_size_t r)
    by (apply (unsigned_nonneg c_size_t); [reflexivity | assumption]).
  unfold pick_prime. change (Z.of_nat (length PRIMES)) with 54.
  rewrite rem_pos_Ok by (assumption || lia). cbn [bind].
  eexists. split; [reflexivity|]. apply nth_In.
  pose proof (Z.rem_bound_pos (convert c_size_t r) 54 H0 ltac:(lia)).
  change (length PRIMES) with 54%nat. lia.
Qed.

Lemma representable_unsigned (v : Z) :
  0 <= v <= 63001 -> representable c_unsigned v.
Proof.
  intros Hv.
  assert (Hmax : max_val c_unsigned = 4294967295) by reflexivity.
  assert (Hmin : min_val c_unsigned = 0) by reflexivity.
  assert (Hint : max_val c_int = 2147483647) by reflexivity.
  unfold representable, in_range. rewrite Z.abs_eq by lia. lia.
Qed.

(** The exponents [main] derives from [Phi], which is 1 or even. *)
Lemma key_exponents (Phi x : Z) :
  Phi = 1 \/ (2 <= Phi /\ Z.even Phi = true) -> Phi <= 62500 ->
  0 <= x < Phi ->
  exists e d,
    select_e (select_e_fuel Phi) (Z.lor x 1) Phi = Ok e /\
    invMul c_unsigned e Phi = Ok d /\
    1 <= e <= Phi /\ Z.odd e = true /\ Z.gcd e Phi = 1 /\
    1 <= d <= Phi /\ (Phi | e * d - 1).
Proof.
  intros [-> | [HPhi Heven]] Hle Hx.
  - assert (x = 0) as -> by lia.
    exists 1, 1. repeat split; try (vm_compute; congruence).
    exists 0. reflexivity.
  - assert (Hmax : max_val c_unsigned = 4294967295) by reflexivity.
    assert (Hw : well_formed c_unsigned) by (unfold well_formed; simpl; lia).
    destruct (lor_one_start Phi x Heven Hx) as (Hodd & Hr & Hpos).
    destruct (select_e_ok Phi ltac:(lia) Heven (select_e_fuel Phi)
                (Z.lor x 1) Hodd ltac:(lia))
      as (e & Hs & Hre & Ho & Hc & _).
    { unfold select_e_fuel. rewrite Nat2Z.inj_succ, Z2Nat.id by lia. lia. }
    destruct (invMul_coprime c_unsigned e Phi Hw)
      as (d & Hd & Hdr & [k Hk]);
      [apply representable_unsigned; lia | apply representable_unsigned; lia
      | rewrite Z.gcd_comm; assumption | rewrite Z.abs_eq by lia; lia |].
    rewrite Z.abs_eq in Hdr, Hk by lia. rewrite Z.abs_eq in Hk by lia.
    destruct (Z.ltb_spec e 0) as [? | _]; [lia|].
    assert (Hd1 : 1 <= d).
    { destruct (Z.eq_dec d 0) as [-> | ?]; [|lia].
      assert (Hdiv : (Phi | 1)) by (exists (- k); lia).
      apply Z.divide_1_r_nonneg in Hdiv; lia. }
    exists e, d. split; [assumption|]. split; [assumption|].
    split; [lia|]. split; [assumption|]. split; [assumption|].
    split; [lia|]. exists k. assumption.
Qed.

(** [main] runs to the end for every outcome of [rand()] and every
    number read, and these relations hold between the values it prints. *)
Lemma main_run_ok (r1 r2 r3 input : Z) :
  in_range c_unsigned input ->
  exists run,
    main_run r1 r2 r3 input = Ok run /\
    In (run_P run) PRIMES /\ In (run_Q run) PRIMES /\
    run_N run = run_P run * run_Q run /\
    run_Phi run = (run_P run - 1) * (run_Q run - 1) /\
    1 <= run_e run <= run_Phi run /\ Z.odd (run_e run) = true /\
    Z.gcd (run_e run) (run_Phi run) = 1 /\
    1 <= run_d run <= run_Phi run /\
    (run_Phi run | run_e run * run_d run - 1) /\
    run_M run = Z.rem input (run_N run) /\
    0 <= run_M run < run_N run /\
    run_C run = Z.rem (run_M run ^ run_e run) (run_N run) /\
    run_M' run = Z.rem (run_C run ^ run_d run) (run_N run).
Proof.
  intros Hin.
  assert (Hw : well_formed c_unsigned) by (unfold well_formed; simpl; lia).
  assert (Hmax : max_val c_unsigned = 4294967295) by reflexivity.
  assert (Hmin : min_val c_unsigned = 0) by reflexivity.
  assert (Hnn : forall z, 0 <= z <= 63001 -> in_range c_unsigned z)
    by (intros; unfold in_range; lia).
  destruct (pick_prime_Ok r1) as (P & HP & HPin).
  destruct (pick_prime_Ok r2) as (Q & HQ & HQin).
  destruct (PRIMES_prime P HPin) as [HPp HPr].
  destruct (PRIMES_prime Q HQin) as [HQp HQr].
  assert (HN : 4 <= P * Q <= 63001) by nia.
  assert (HPhi : 1 <= (P - 1) * (Q - 1) <= 62500) by nia.
  unfold main_run. rewrite HP; cbn [bind]. rewrite HQ; cbn [bind].
  unfold mul, sub.
  rewrite (arith_in_range c_unsigned (P * Q)) by (auto; apply Hnn; lia).
  cbn [bind].
  rewrite (arith_in_range c_unsigned (P - 1)) by (auto; apply Hnn; lia).
  cbn [bind].
  rewrite (arith_in_range c_unsigned (Q - 1)) by (auto; apply Hnn; lia).
  cbn [bind].
  rewrite (arith_in_range c_unsigned ((P - 1) * (Q - 1)))
    by (auto; apply Hnn; lia).
  cbn [bind].
  set (N := P * Q) in *. set (Phi := (P - 1) * (Q - 1)) in *.
  pose proof (convert_range c_unsigned r3 Hw) as Hc.
  rewrite (rem_pos_Ok c_unsigned (convert c_unsigned r3) Phi)
    by (assumption || lia).
  cbn [bind]. set (x := Z.rem (convert c_unsigned r3) Phi).
  assert (Hx : 0 <= x < Phi)
    by (apply Z.rem_bound_pos; unfold in_range in Hc; lia).
  assert (Hpar : Phi = 1 \/ (2 <= Phi /\ Z.even Phi = true)).
  { destruct (PRIMES_parity P HPin) as [-> | [HP3 HPo]].
    - destruct (PRIMES_parity Q HQin) as [-> | [HQ3 HQo]];
        [left; reflexivity | right].
      split; [unfold Phi; lia|].
      apply Z.odd_spec in HQo. destruct HQo as [k ->].
      apply Z.even_spec. exists k. unfold Phi. ring.
    - right. split; [unfold Phi; nia|].
      apply Z.odd_spec in HPo. destruct HPo as [k ->].
      apply Z.even_spec. exists (k * (Q - 1)). unfold Phi. ring. }
  destruct (key_exponents Phi x Hpar ltac:(lia) Hx)
    as (e & d & Hse & Hd & He & Hodd & Hg & Hdr & Hdiv).
  rewrite Hse; cbn [bind]. rewrite Hd; cbn [bind].
  rewrite (rem_pos_Ok c_unsigned input N) by (assumption || lia).
  cbn [bind]. set (M := Z.rem input N).
  assert (HM : 0 <= M < N)
    by (apply Z.rem_bound_pos; unfold in_range in Hin; lia).
  assert (Hfit : products_fit c_unsigned N).
  { unfold products_fit. change (promote c_unsigned) with c_unsigned.
    rewrite Hmax. nia. }
  rewrite (modPow_pos c_unsigned M e N); auto; try lia;
    try (apply Hnn; lia).
  cbn [bind]. set (C := Z.rem (M ^ e) N).
  assert (HC : 0 <= C < N)
    by (apply Z.rem_bound_pos; [apply Z.pow_nonneg|]; lia).
  rewrite (modPow_pos c_unsigned C d N); auto; try lia;
    try (apply Hnn; lia).
  cbn [bind]. eexists. split; [reflexivity|].
  cbn [run_P run_Q run_N run_Phi run_e run_d run_M run_C run_M'].
  split; [assumption|]. split; [assumption|].
  split; [reflexivity|]. split; [reflexivity|].
  split; [assumption|]. split; [assumption|]. split; [assumption|].
  split; [assumption|]. split; [assumption|].
  split; [reflexivity|]. split; [assumption|].
  split; reflexivity.
Qed.

(** X19: [main] never divides by zero and never runs its loops forever:
    whatever the three calls of [rand()] return and whatever number is
    read, it prints two primes [P] and [Q] from the table, [N = P * Q],
    [Phi = (P - 1) * (Q - 1)], an odd [e] in [1 .. Phi] coprime with [Phi],
    a [d] in [1 .. Phi] with [e * d = 1] modulo [Phi], the number read
    reduced modulo [N], its power [e] modulo [N], and the power [d] of that
    modulo [N]. *)
Theorem main_run_values (r1 r2 r3 input : Z) :
  in_range c_unsigned input ->
  exists run,
    main_run r1 r2 r3 input = Ok run /\
    In (run_P run) PRIMES /\ In (run_Q run) PRIMES /\
    run_N run = run_P run * run_Q run /\
    run_Phi run = (run_P run - 1) * (run_Q run - 1) /\
    1 <= run_e run <= run_Phi run /\ Z.odd (run_e run) = true /\
    Z.gcd (run_e run) (run_Phi run) = 1 /\
    1 <= run_d run <= run_Phi run /\
    (run_e run * run_d run) mod run_Phi run = 1 mod run_Phi run /\
    run_M run = input mod run_N run /\
    run_C run = run_M run ^ run_e run mod run_N run /\
    run_M' run = run_C run ^ run_d run mod run_N run.
Proof.
  intros Hin.
  destruct (main_run_ok r1 r2 r3 input Hin)
    as (run & Hrun & HP & HQ & HN & HPhi & He & Hodd & Hg & Hd & Hdiv &
        HM & HMr & HC & HM').
  destruct (PRIMES_prime _ HP) as [_ HPr].
  destruct (PRIMES_prime _ HQ) as [_ HQr].
  assert (HNpos : 0 < run_N run) by (rewrite HN; nia).
  assert (Hin0 : 0 <= input) by (unfold in_range in Hin; apply Hin).
  exists run. split; [assumption|].
  split; [assumption|]. split; [assumption|].
  split; [assumption|]. split; [assumption|].
  split; [assumption|]. split; [assumption|]. split; [assumption|].
  split; [assumption|].
  split.
  { destruct Hdiv as [k Hk].
    replace (run_e run * run_d run) with (1 + k * run_Phi run) by lia.
    apply Z.mod_add. lia. }
  split; [rewrite HM; apply Z.rem_mod_nonneg; lia|].
  split.
  - rewrite HC. apply Z.rem_mod_nonneg; [apply Z.pow_nonneg|]; lia.
  - rewrite HM'. apply Z.rem_mod_nonneg; [|lia].
    apply Z.pow_nonneg. rewrite HC.
    apply Z.rem_bound_pos; [apply Z.pow_nonneg|]; lia.
Qed.

(** The theorem above at a concrete input. *)
Lemma main_run_values_witness :
  in_range c_unsigned 65 /\
  exists run,
    main_run 17 15 1000 65 = Ok run /\
    In (run_P run) PRIMES /\ In (run_Q run) PRIMES /\
    run_N run = run_P run * run_Q run /\
    run_Phi run = (run_P run - 1) * (run_Q run - 1) /\
    1 <= run_e run <= run_Phi run /\ Z.odd (run_e run) = true /\
    Z.gcd (run_e run) (run_Phi run) = 1 /\
    1 <= run_d run <= run_Phi run /\
    (run_e run * run_d run) mod run_Phi run = 1 mod run_Phi run /\
    run_M run = 65 mod run_N run /\
    run_C run = run_M run ^ run_e run mod run_N run /\
    run_M' run = run_C run ^ run_d run mod run_N run.
Proof.
  assert (Hin : in_range c_unsigned 65) by by_computation.
  split; [assumption|].
  apply (main_run_values 17 15 1000 65 Hin).
Defined.

(** X20: when the two primes [main] draws differ, the last number it
    prints is the message it encrypted: decryption undoes encryption. *)
Theorem main_run_round_trip (r1 r2 r3 input : Z) (run : rsa_run) :
  in_range c_unsigned input ->
  main_run r1 r2 r3 input = Ok run ->
  run_P run <> run_Q run ->
  run_M' run = run_M run.
Proof.
  intros Hin Hrun Hne.
  destruct (main_run_ok r1 r2 r3 input Hin)
    as (run' & Hrun' & HP & HQ & HN & HPhi & He & Hodd & Hg & Hd & Hdiv &
        HM & HMr & HC & HM').
  rewrite Hrun in Hrun'. injection Hrun' as <-.
  destruct (PRIMES_prime _ HP) as [HPp HPr].
  destruct (PRIMES_prime _ HQ) as [HQp HQr].
  assert (HNpos : 0 < run_N run) by (rewrite HN; nia).
  destruct Hdiv as [k Hk].
  assert (Hk0 : 0 <= k) by nia.
  rewrite HM', HC. rewrite rem_pow by lia.
  rewrite <- Z.pow_mul_r by lia.
  rewrite Z.rem_mod_nonneg by (try lia; apply Z.pow_nonneg; lia).
  replace (run_e run * run_d run)
    with (1 + k * ((run_P run - 1) * (run_Q run - 1)))
    by (rewrite <- HPhi; lia).
  rewrite HN. apply rsa_cycle; try assumption. rewrite <- HN. assumption.
Qed.

(** The theorem above at a concrete input. *)
Lemma main_run_round_trip_witness :
  in_range c_unsigned 65 /\
  main_run 17 15 1000 65 = Ok (RsaRun 61 53 3233 3120 1003 787 65 2093 65) /\
  61 <> 53 /\
  run_M' (RsaRun 61 53 3233 3120 1003 787 65 2093 65) =
  run_M (RsaRun 61 53 3233 3120 1003 787 65 2093 65).
Proof.
  assert (Hin : in_range c_unsigned 65) by by_computation.
  assert (Hrun : main_run 17 15 1000 65 =
                 Ok (RsaRun 61 53 3233 3120 1003 787 65 2093 65))
    by (vm_compute; reflexivity).
  assert (Hne : 61 <> 53) by discriminate.
  repeat (split; [assumption|]).
  apply (main_run_round_trip 17 15 1000 65 _ Hin Hrun Hne).
Defined.

(** X21: nothing keeps the two draws apart, and when [main] draws the same
    prime twice a message that is a multiple of it is lost: with an
    exponent [e] of 2 or more, the ciphertext and the decrypted number are
    both 0. *)
Theorem main_run_equal_primes (r1 r2 r3 input : Z) (run : rsa_run) :
  in_range c_unsigned input ->
  main_run r1 r2 r3 input = Ok run ->
  run_P run = run_Q run -> 2 <= run_e run -> (run_P run | run_M run) ->
  run_C run = 0 /\ run_M' run = 0.
Proof.
  intros Hin Hrun Heq He2 [j Hj].
  destruct (main_run_ok r1 r2 r3 input Hin)
    as (run' & Hrun' & HP & HQ & HN & HPhi & He & Hodd & Hg & Hd & Hdiv &
        HM & HMr & HC & HM').
  rewrite Hrun in Hrun'. injection Hrun' as <-.
  destruct (PRIMES_prime _ HP) as [HPp HPr].
  assert (HNpos : 0 < run_N run) by (rewrite HN, <- Heq; nia).
  assert (HC0 : run_C run = 0).
  { rewrite HC. apply Z.rem_divide; [lia|].
    rewrite Hj, HN, <- Heq.
    replace (run_e run) with (2 + (run_e run - 2)) by lia.
    rewrite Z.pow_add_r by lia.
    exists (j * j * (j * run_P run) ^ (run_e run - 2)). ring. }
  split; [assumption|].
  rewrite HM', HC0. rewrite Z.pow_0_l by lia. apply Z.rem_0_l. lia.
Qed.

(** The theorem above at a concrete input. *)
Lemma main_run_equal_primes_witness :
  in_range c_unsigned 3 /\
  main_run 1 1 7 3 = Ok (RsaRun 3 3 9 4 3 3 3 0 0) /\
  run_P (RsaRun 3 3 9 4 3 3 3 0 0) = run_Q (RsaRun 3 3 9 4 3 3 3 0 0) /\
  2 <= run_e (RsaRun 3 3 9 4 3 3 3 0 0) /\
  (run_P (RsaRun 3 3 9 4 3 3 3 0 0) | run_M (RsaRun 3 3 9 4 3 3 3 0 0)) /\
  run_C (RsaRun 3 3 9 4 3 3 3 0 0) = 0 /\
  run_M' (RsaRun 3 3 9 4 3 3 3 0 0) = 0.
Proof.
  assert (Hin : in_range c_unsigned 3) by by_computation.
  assert (Hrun : main_run 1 1 7 3 = Ok (RsaRun 3 3 9 4 3 3 3 0 0))
    by (vm_compute; reflexivity).
  assert (Heq : run_P (RsaRun 3 3 9 4 3 3 3 0 0) =
                run_Q (RsaRun 3 3 9 4 3 3 3 0 0)) by reflexivity.
  assert (He : 2 <= run_e (RsaRun 3 3 9 4 3 3 3 0 0)) by by_computation.
  assert (Hdiv : (run_P (RsaRun 3 3 9 4 3 3 3 0 0) |
                  run_M (RsaRun 3 3 9 4 3 3 3 0 0)))
    by (exists 1; reflexivity).
  repeat (split; [assumption|]).
  apply (main_run_equal_primes 1 1 7 3 _ Hin Hrun Heq He Hdiv).
Defined.
